(** * otter: the cache core (internal/core/cache.go)

    A shallow embedding of the coordination engine of the cache: the
    facade operations (Get, Has, Set and its variants, Delete, Clear, Close),
    the maintenance loop [process] and the expiration sweeper [cleanup].

    The collaborators of the core (hash table, S3-FIFO policy, expiration
    policy, lossy read buffers, MPSC queue, statistics, clock) live in other
    packages.  The two policies are kept abstract behind type classes; the
    others are small state machines.

    Goroutines are modelled by explicit state passing over a [World]: the
    cache structure, the heap of the nodes, the local variables of the two
    workers and a trace of the calls whose relative order the mutex
    discipline is about. *)

From stdpp Require Import gmap list.

Local Open Scope Z_scope.

(** ** Machine integers *)

(** Conversion to [uint32] and wrap-around of [uint32] arithmetic. *)
Definition u32 (z : Z) : Z := z mod 2 ^ 32.

(** Wrap-around of [int64] arithmetic ([time.Duration] is an [int64]). *)
Definition i64 (z : Z) : Z := (z + 2 ^ 63) mod 2 ^ 64 - 2 ^ 63.

(** [time.Second], in nanoseconds. *)
Definition Second : Z := 1000000000.

(** ** Statistics *)

(** Modelled from the spec: the statistics collector (package [stats]) is
    a pair of thread-safe counters; a cache built without [StatsEnabled]
    holds a nil collector, on which every method does nothing. *)
Record Stats := mkStats { hits : Z; misses : Z }.

Definition IncHits (s : option Stats) : option Stats :=
  match s with
  | Some st => Some (mkStats (hits st + 1) (misses st))
  | None => None
  end.

Definition IncMisses (s : option Stats) : option Stats :=
  match s with
  | Some st => Some (mkStats (hits st) (misses st + 1))
  | None => None
  end.

Definition stats_Clear (s : option Stats) : option Stats :=
  match s with
  | Some _ => Some (mkStats 0 0)
  | None => None
  end.

Section core.

Context {K : Type} `{Countable K} {V : Type}.

(** The zero value of [V] ([zeroValue[V]()]). *)
Variable zeroValue : V.

(** ** Nodes *)

(** Modelled from the spec: a node (package [node]) carries a key, a value,
    an expiration (0: never expires), a cost and a liveness flag, which
    [Die] clears.  A Go node is a pointer, shared by the hash table, the
    tasks, the buffers and the policies: here it is an address [ref] into
    the heap of the world, so that every holder of a node sees its death.
    Go has no pointer to a freed node: a reference outside the heap stands
    for no node of the program, and the operations given one do nothing. *)
Record Node := mkNode {
  Key : K;
  Value : V;
  Expiration : Z;
  Cost : Z;
  IsAlive : bool;
}.

Definition ref := nat.

Definition kill (n : Node) : Node :=
  mkNode (Key n) (Value n) (Expiration n) (Cost n) false.

(** Modelled from the spec: a node is expired when its expiration is not 0
    and the clock has reached it. *)
Definition IsExpired (now : Z) (n : Node) : bool :=
  negb (Expiration n =? 0) && (Expiration n <=? now).

(** Modelled from the spec: the node manager (package [node]) is configured
    when the cache is built ([node.Config]).  Its nodes store an expiration
    only when entries can expire (with neither a TTL nor variable TTLs there
    is no expiration), and a cost only when they are asked to: a node
    without the field never expires, and counts for the default cost 1. *)
Record node_Config := mk_node_Config {
  node_WithExpiration : bool;
  node_WithCost : bool;
}.

(** The node [nodeManager.Create] makes. *)
Definition new_node (m : node_Config) (key : K) (value : V)
  (expiration cost : Z) : Node :=
  mkNode key value
    (if node_WithExpiration m then expiration else 0)
    (if node_WithCost m then cost else 1)
    true.

(** ** Write tasks *)

(** Modelled from the spec: a write task (package [task]) is an Add, an
    Update of an old node by a new one, a Delete, a Clear or a Close. *)
Inductive WriteTask :=
  | NewAddTask (n : ref)
  | NewUpdateTask (n old : ref)
  | NewDeleteTask (n : ref)
  | NewClearTask
  | NewCloseTask.

Definition IsClear (t : WriteTask) : bool :=
  match t with NewClearTask => true | _ => false end.

Definition IsClose (t : WriteTask) : bool :=
  match t with NewCloseTask => true | _ => false end.

(** ** Lossy read buffers (package [lossy]) *)

(** Modelled from the spec: a ring of fixed capacity.  [Add] hands out the
    whole content when the ring becomes full and then drops every event
    until [Free]; [Clear] empties the ring. *)
Record Buffer := mkBuffer { items : list ref; handed : bool }.

Definition lossy_capacity : nat := 16.

Definition lossy_New : Buffer := mkBuffer [] false.

Definition lossy_Add (n : ref) (b : Buffer) : option (list ref) * Buffer :=
  if handed b then (None, b)
  else
    let its := items b ++ [n] in
    if (length its =? lossy_capacity)%nat
    then (Some its, mkBuffer its true)
    else (None, mkBuffer its false).

Definition lossy_Free (b : Buffer) : Buffer := mkBuffer [] false.

Definition lossy_Clear (b : Buffer) : Buffer := mkBuffer [] false.

(** ** The two policies *)

(** The eviction policy (package [s3fifo]) is an external collaborator: the
    core only relies on its interface.  The operations that are given nodes
    may read them in the heap. *)
Class EvictionPolicy (P : Type) := {
  NewPolicy : Z → P;
  policy_Read : gmap ref Node → list ref → P → P;
  policy_Write :
    gmap ref Node → list ref → list WriteTask → P → list ref * P;
  policy_Delete : gmap ref Node → list ref → P → P;
  policy_Clear : P → P;
  MaxAvailableCost : P → Z;
}.

(** The constructors of the three expiration policies. *)
Inductive ExpireKind := Fixed | Variable_ | Disabled.

(** The interface [expirePolicy] of cache.go.  [RemoveExpired] reads the
    clock. *)
Class ExpirePolicy (E : Type) := {
  expire_New : ExpireKind → E;
  expire_Add : gmap ref Node → ref → E → E;
  expire_Delete : gmap ref Node → ref → E → E;
  expire_RemoveExpired :
    gmap ref Node → Z → list ref → E → list ref * E;
  expire_Clear : E → E;
}.

Context {P : Type} {policy_ops : EvictionPolicy P}.
Context {E : Type} {expire_ops : ExpirePolicy E}.

(** ** The trace *)

(** The calls whose order the mutex discipline is about: operations on the
    mutex, state-changing calls on the two policies, mutations of the hash
    table, deaths of nodes and sends on [doneClear]; and the steps of the
    maintenance loop on its batch ([buffer = clearBuffer(buffer)]), on the
    write queue ([writeBuffer.Clear()]) and on the closed flag
    ([isClosed = true]). *)
Inductive Event :=
  | EvLock
  | EvUnlock
  | EvPolicyRead (batch : list ref)
  | EvPolicyWrite (batch : list WriteTask)
  | EvPolicyDelete (ns : list ref)
  | EvPolicyClear
  | EvExpireAdd (n : ref)
  | EvExpireDelete (n : ref)
  | EvExpireRemoveExpired
  | EvExpireClear
  | EvMapSet (n : ref)
  | EvMapSetIfAbsent (n : ref)
  | EvMapDelete (k : K)
  | EvMapDeleteNode (n : ref)
  | EvMapClear
  | EvDie (n : ref)
  | EvDoneClear
  | EvBufferClear
  | EvQueueClear
  | EvSetClosed.

(** ** The cache and the world *)

Record Cache := mkCache {
  nodeManager : node_Config;
  hashmap : gmap K ref;
  policy : P;
  expirePolicy : E;
  stats : option Stats;
  readBuffers : list Buffer;
  writeBuffer : list WriteTask;
  evictionMutex : bool;          (* true: locked *)
  closeOnce : bool;              (* true: done *)
  costFunc : K → V → Z;
  capacity : Z;
  mask : Z;
  ttl : Z;
  withExpiration : bool;
  isClosed : bool;
}.

(** State of a worker goroutine. *)
Inductive Status := Running | Exited | NotStarted.

Record World := mkWorld {
  cache : Cache;
  heap : gmap ref Node;          (* the nodes allocated so far *)
  clock_users : nat;             (* package unixtime: caches using the clock *)
  receiving : bool;              (* a caller is blocked on [<-c.doneClear] *)
  maintenance : Status;          (* goroutine [process] *)
  buffer : list WriteTask;       (* locals of [process] *)
  deleted : list ref;
  i : Z;
  sweeper : Status;              (* goroutine [cleanup] *)
  expired : list ref;            (* local of [cleanup] *)
  trace : list Event;
}.

(** ** Field updates *)

Definition set_hashmap (x : gmap K ref) (c : Cache) : Cache :=
  mkCache (nodeManager c) x (policy c) (expirePolicy c) (stats c)
    (readBuffers c) (writeBuffer c) (evictionMutex c) (closeOnce c)
    (costFunc c) (capacity c) (mask c) (ttl c) (withExpiration c)
    (isClosed c).

Definition set_policy (x : P) (c : Cache) : Cache :=
  mkCache (nodeManager c) (hashmap c) x (expirePolicy c) (stats c)
    (readBuffers c) (writeBuffer c) (evictionMutex c) (closeOnce c)
    (costFunc c) (capacity c) (mask c) (ttl c) (withExpiration c)
    (isClosed c).

Definition set_expirePolicy (x : E) (c : Cache) : Cache :=
  mkCache (nodeManager c) (hashmap c) (policy c) x (stats c) (readBuffers c)
    (writeBuffer c) (evictionMutex c) (closeOnce c) (costFunc c) (capacity c)
    (mask c) (ttl c) (withExpiration c) (isClosed c).

Definition set_stats (x : option Stats) (c : Cache) : Cache :=
  mkCache (nodeManager c) (hashmap c) (policy c) (expirePolicy c) x
    (readBuffers c) (writeBuffer c) (evictionMutex c) (closeOnce c)
    (costFunc c) (capacity c) (mask c) (ttl c) (withExpiration c)
    (isClosed c).

Definition set_readBuffers (x : list Buffer) (c : Cache) : Cache :=
  mkCache (nodeManager c) (hashmap c) (policy c) (expirePolicy c) (stats c) x
    (writeBuffer c) (evictionMutex c) (closeOnce c) (costFunc c) (capacity c)
    (mask c) (ttl c) (withExpiration c) (isClosed c).

Definition set_writeBuffer (x : list WriteTask) (c : Cache) : Cache :=
  mkCache (nodeManager c) (hashmap c) (policy c) (expirePolicy c) (stats c)
    (readBuffers c) x (evictionMutex c) (closeOnce c) (costFunc c)
    (capacity c) (mask c) (ttl c) (withExpiration c) (isClosed c).

Definition set_evictionMutex (x : bool) (c : Cache) : Cache :=
  mkCache (nodeManager c) (hashmap c) (policy c) (expirePolicy c) (stats c)
    (readBuffers c) (writeBuffer c) x (closeOnce c) (costFunc c) (capacity c)
    (mask c) (ttl c) (withExpiration c) (isClosed c).

Definition set_closeOnce (x : bool) (c : Cache) : Cache :=
  mkCache (nodeManager c) (hashmap c) (policy c) (expirePolicy c) (stats c)
    (readBuffers c) (writeBuffer c) (evictionMutex c) x (costFunc c)
    (capacity c) (mask c) (ttl c) (withExpiration c) (isClosed c).

Definition set_isClosed (x : bool) (c : Cache) : Cache :=
  mkCache (nodeManager c) (hashmap c) (policy c) (expirePolicy c) (stats c)
    (readBuffers c) (writeBuffer c) (evictionMutex c) (closeOnce c)
    (costFunc c) (capacity c) (mask c) (ttl c) (withExpiration c) x.

Definition with_cache (x : Cache) (w : World) : World :=
  mkWorld x (heap w) (clock_users w) (receiving w) (maintenance w) (buffer w)
    (deleted w) (i w) (sweeper w) (expired w) (trace w).

Definition with_heap (x : gmap ref Node) (w : World) : World :=
  mkWorld (cache w) x (clock_users w) (receiving w) (maintenance w) (buffer w)
    (deleted w) (i w) (sweeper w) (expired w) (trace w).

Definition with_clock_users (x : nat) (w : World) : World :=
  mkWorld (cache w) (heap w) x (receiving w) (maintenance w) (buffer w)
    (deleted w) (i w) (sweeper w) (expired w) (trace w).

Definition with_receiving (x : bool) (w : World) : World :=
  mkWorld (cache w) (heap w) (clock_users w) x (maintenance w) (buffer w)
    (deleted w) (i w) (sweeper w) (expired w) (trace w).

Definition with_maintenance (x : Status) (w : World) : World :=
  mkWorld (cache w) (heap w) (clock_users w) (receiving w) x (buffer w)
    (deleted w) (i w) (sweeper w) (expired w) (trace w).

Definition with_buffer (x : list WriteTask) (w : World) : World :=
  mkWorld (cache w) (heap w) (clock_users w) (receiving w) (maintenance w) x
    (deleted w) (i w) (sweeper w) (expired w) (trace w).

Definition with_deleted (x : list ref) (w : World) : World :=
  mkWorld (cache w) (heap w) (clock_users w) (receiving w) (maintenance w)
    (buffer w) x (i w) (sweeper w) (expired w) (trace w).

Definition with_i (x : Z) (w : World) : World :=
  mkWorld (cache w) (heap w) (clock_users w) (receiving w) (maintenance w)
    (buffer w) (deleted w) x (sweeper w) (expired w) (trace w).

Definition with_sweeper (x : Status) (w : World) : World :=
  mkWorld (cache w) (heap w) (clock_users w) (receiving w) (maintenance w)
    (buffer w) (deleted w) (i w) x (expired w) (trace w).

Definition with_expired (x : list ref) (w : World) : World :=
  mkWorld (cache w) (heap w) (clock_users w) (receiving w) (maintenance w)
    (buffer w) (deleted w) (i w) (sweeper w) x (trace w).

Definition with_trace (x : list Event) (w : World) : World :=
  mkWorld (cache w) (heap w) (clock_users w) (receiving w) (maintenance w)
    (buffer w) (deleted w) (i w) (sweeper w) (expired w) x.

Definition upd_cache (f : Cache → Cache) (w : World) : World :=
  with_cache (f (cache w)) w.

(** ** A state monad with faults *)

(** A computation either returns in a new world or never returns: it waits
    for ever ([Deadlock]) or the runtime aborts it ([Panic]).  [OutOfFuel]
    is the bound of the interpreter of the maintenance loop. *)
Inductive Fault := Deadlock | Panic | OutOfFuel.

Inductive Res (A : Type) :=
  | Ok (a : A) (w : World)
  | Stuck (f : Fault).
Arguments Ok {A} a w.
Arguments Stuck {A} f.

Definition M (A : Type) : Type := World → Res A.

Definition ret {A} (a : A) : M A := λ w, Ok a w.

Definition bind {A B} (m : M A) (k : A → M B) : M B :=
  λ w, match m w with
       | Ok a w' => k a w'
       | Stuck f => Stuck f
       end.

Definition raise {A} (f : Fault) : M A := λ _, Stuck f.

Definition get {A} (f : World → A) : M A := λ w, Ok (f w) w.

Definition modify (f : World → World) : M unit := λ w, Ok tt (f w).

Notation "x <- m ; k" := (bind m (λ x, k))
  (at level 100, m at next level, right associativity).
Notation "m ;; k" := (bind m (λ _, k))
  (at level 100, right associativity).

Fixpoint for_each {A} (l : list A) (f : A → M unit) : M unit :=
  match l with
  | [] => ret tt
  | x :: l' => f x ;; for_each l' f
  end.

Definition emit (e : Event) : M unit :=
  modify (λ w, with_trace (trace w ++ [e]) w).

(** ** The collaborators as operations on the world *)

(** [sync.Mutex]: locking a locked mutex waits; unlocking an unlocked one is
    a fatal error. *)
Definition Lock : M unit :=
  held <- get (λ w, evictionMutex (cache w));
  if held then raise Deadlock
  else modify (upd_cache (set_evictionMutex true)) ;; emit EvLock.

Definition Unlock : M unit :=
  held <- get (λ w, evictionMutex (cache w));
  if held then modify (upd_cache (set_evictionMutex false)) ;; emit EvUnlock
  else raise Panic.

(** Modelled from the spec: the hash table (package [hashtable]) provides
    atomic [Get], [Set], [SetIfAbsent], [Delete], [DeleteNode] and [Clear];
    the writing ones return the node they displaced, found or removed, if
    any, and [DeleteNode] removes a node only if it is the one stored. *)
Definition hashmap_Get (key : K) : M (option ref) :=
  get (λ w, hashmap (cache w) !! key).

(** The fields of a node. *)
Definition node (n : ref) : M (option Node) :=
  get (λ w, heap w !! n).

Definition hashmap_Set (n : ref) : M (option ref) :=
  o <- node n;
  match o with
  | Some nd =>
      prev <- hashmap_Get (Key nd);
      modify (upd_cache (λ c, set_hashmap (<[Key nd := n]> (hashmap c)) c)) ;;
      emit (EvMapSet n) ;;
      ret prev
  | None => ret None
  end.

Definition hashmap_SetIfAbsent (n : ref) : M (option ref) :=
  o <- node n;
  match o with
  | Some nd =>
      prev <- hashmap_Get (Key nd);
      emit (EvMapSetIfAbsent n) ;;
      match prev with
      | Some p => ret (Some p)
      | None =>
          modify (upd_cache (λ c,
            set_hashmap (<[Key nd := n]> (hashmap c)) c)) ;;
          ret None
      end
  | None => ret None
  end.

Definition hashmap_Delete (key : K) : M (option ref) :=
  prev <- hashmap_Get key;
  modify (upd_cache (λ c, set_hashmap (delete key (hashmap c)) c)) ;;
  emit (EvMapDelete key) ;;
  ret prev.

(** The entry of the key of [n] is removed if it holds [n] itself. *)
Definition hashmap_DeleteNode (n : ref) : M (option ref) :=
  emit (EvMapDeleteNode n) ;;
  o <- node n;
  match o with
  | Some nd =>
      prev <- hashmap_Get (Key nd);
      match prev with
      | Some p =>
          if bool_decide (p = n)
          then
            modify (upd_cache (λ c,
              set_hashmap (delete (Key nd) (hashmap c)) c)) ;;
            ret (Some p)
          else ret None
      | None => ret None
      end
  | None => ret None
  end.

Definition hashmap_Clear : M unit :=
  modify (upd_cache (set_hashmap ∅)) ;; emit EvMapClear.

(** Nodes.  Modelled from the spec: [nodeManager.Create] allocates a new
    node, alive, with the fields its configuration lets it store. *)
Definition nodeManager_Create (key : K) (value : V) (expiration cost : Z)
  : M ref :=
  m <- get (λ w, nodeManager (cache w));
  n <- get (λ w, fresh (dom (heap w)));
  modify (λ w,
    with_heap (<[n := new_node m key value expiration cost]> (heap w)) w) ;;
  ret n.

Definition node_IsAlive (n : ref) : M bool :=
  o <- node n;
  match o with
  | Some nd => ret (IsAlive nd)
  | None => ret false
  end.

Definition Die (n : ref) : M unit :=
  modify (λ w, with_heap (alter kill n (heap w)) w) ;;
  emit (EvDie n).

(** Modelled from the spec: the write queue (package [queue]) is a FIFO,
    logically unbounded. *)
Definition writeBuffer_Insert (t : WriteTask) : M unit :=
  modify (upd_cache (λ c, set_writeBuffer (writeBuffer c ++ [t]) c)).

Definition writeBuffer_Clear : M unit :=
  modify (upd_cache (set_writeBuffer [])) ;; emit EvQueueClear.

(** Statistics. *)
Definition stats_IncHits : M unit :=
  modify (upd_cache (λ c, set_stats (IncHits (stats c)) c)).

Definition stats_IncMisses : M unit :=
  modify (upd_cache (λ c, set_stats (IncMisses (stats c)) c)).

(** The policies. *)
Definition do_policy_Read (batch : list ref) : M unit :=
  modify (λ w, upd_cache (λ c,
    set_policy (policy_Read (heap w) batch (policy c)) c) w) ;;
  emit (EvPolicyRead batch).

Definition do_policy_Write (scratch : list ref) (batch : list WriteTask)
  : M (list ref) :=
  r <- get (λ w, policy_Write (heap w) scratch batch (policy (cache w)));
  modify (upd_cache (set_policy (r.2))) ;;
  emit (EvPolicyWrite batch) ;;
  ret (r.1).

Definition do_policy_Delete (ns : list ref) : M unit :=
  modify (λ w, upd_cache (λ c,
    set_policy (policy_Delete (heap w) ns (policy c)) c) w) ;;
  emit (EvPolicyDelete ns).

Definition do_policy_Clear : M unit :=
  modify (upd_cache (λ c, set_policy (policy_Clear (policy c)) c)) ;;
  emit EvPolicyClear.

Definition do_expire_Add (n : ref) : M unit :=
  modify (λ w, upd_cache (λ c,
    set_expirePolicy (expire_Add (heap w) n (expirePolicy c)) c) w) ;;
  emit (EvExpireAdd n).

Definition do_expire_Delete (n : ref) : M unit :=
  modify (λ w, upd_cache (λ c,
    set_expirePolicy (expire_Delete (heap w) n (expirePolicy c)) c) w) ;;
  emit (EvExpireDelete n).

Definition do_expire_RemoveExpired (now : Z) (scratch : list ref)
  : M (list ref) :=
  r <- get (λ w,
    expire_RemoveExpired (heap w) now scratch (expirePolicy (cache w)));
  modify (upd_cache (set_expirePolicy (r.2))) ;;
  emit EvExpireRemoveExpired ;;
  ret (r.1).

Definition do_expire_Clear : M unit :=
  modify (upd_cache (λ c, set_expirePolicy (expire_Clear (expirePolicy c)) c)) ;;
  emit EvExpireClear.

(** ** The facade (cache.go) *)

(** [now] is the reading of [unixtime.Now()], [rnd] the one of
    [xruntime.Fastrand()], both [uint32]. *)

Definition getExpiration (now : Z) (ttl : Z) : Z :=
  let ttlSecond := Z.quot (i64 (i64 (ttl + Second) - 1)) Second in
  u32 (now + u32 ttlSecond).

Definition node_IsExpired (now : Z) (n : ref) : M bool :=
  o <- node n;
  match o with
  | Some nd => ret (IsExpired now nd)
  | None => ret false
  end.

Definition node_Value (n : ref) : M V :=
  o <- node n;
  match o with
  | Some nd => ret (Value nd)
  | None => ret zeroValue
  end.

Definition getReadBufferIdx (rnd : Z) : M Z :=
  get (λ w, Z.land rnd (mask (cache w))).

Definition afterGet (rnd : Z) (got : ref) : M unit :=
  idx <- getReadBufferIdx rnd;
  bufs <- get (λ w, readBuffers (cache w));
  match bufs !! Z.to_nat idx with
  | None => raise Panic
  | Some b =>
      let r := lossy_Add got b in
      modify (upd_cache (set_readBuffers (<[Z.to_nat idx := r.2]> bufs))) ;;
      match r.1 with
      | Some returned =>
          Lock ;;
          do_policy_Read returned ;;
          Unlock ;;
          modify (upd_cache (λ c,
            set_readBuffers (alter lossy_Free (Z.to_nat idx) (readBuffers c)) c))
      | None => ret tt
      end
  end.

Definition Get (rnd now : Z) (key : K) : M (V * bool) :=
  got <- hashmap_Get key;
  match got with
  | None => stats_IncMisses ;; ret (zeroValue, false)
  | Some got =>
      live <- node_IsAlive got;
      if negb live then stats_IncMisses ;; ret (zeroValue, false)
      else
        dead <- node_IsExpired now got;
        if dead then
          writeBuffer_Insert (NewDeleteTask got) ;;
          stats_IncMisses ;;
          ret (zeroValue, false)
        else
          afterGet rnd got ;;
          stats_IncHits ;;
          v <- node_Value got;
          ret (v, true)
  end.

Definition Has (rnd now : Z) (key : K) : M bool :=
  r <- Get rnd now key;
  ret (r.2).

Definition defaultExpiration (now : Z) : M Z :=
  t <- get (λ w, ttl (cache w));
  if t =? 0 then ret 0 else ret (u32 (now + t)).

Definition set (key : K) (value : V) (expiration : Z) (onlyIfAbsent : bool)
  : M bool :=
  cost <- get (λ w, costFunc (cache w) key value);
  limit <- get (λ w, MaxAvailableCost (policy (cache w)));
  if cost >? limit then ret false
  else
    n <- nodeManager_Create key value expiration cost;
    if onlyIfAbsent then
      res <- hashmap_SetIfAbsent n;
      match res with
      | None => writeBuffer_Insert (NewAddTask n) ;; ret true
      | Some _ => ret false
      end
    else
      evicted <- hashmap_Set n;
      match evicted with
      | Some old =>
          Die old ;; writeBuffer_Insert (NewUpdateTask n old)
      | None => writeBuffer_Insert (NewAddTask n)
      end ;;
      ret true.

Definition Set_ (now : Z) (key : K) (value : V) : M bool :=
  e <- defaultExpiration now;
  set key value e false.

Definition SetWithTTL (now : Z) (key : K) (value : V) (ttl : Z) : M bool :=
  set key value (getExpiration now ttl) false.

Definition SetIfAbsent (now : Z) (key : K) (value : V) : M bool :=
  e <- defaultExpiration now;
  set key value e true.

Definition SetIfAbsentWithTTL (now : Z) (key : K) (value : V) (ttl : Z)
  : M bool :=
  set key value (getExpiration now ttl) true.

Definition afterDelete (removed : option ref) : M unit :=
  match removed with
  | Some n => Die n ;; writeBuffer_Insert (NewDeleteTask n)
  | None => ret tt
  end.

Definition Delete (key : K) : M unit :=
  removed <- hashmap_Delete key;
  afterDelete removed.

Definition deleteNode (n : ref) : M unit :=
  removed <- hashmap_DeleteNode n;
  afterDelete removed.

(** ** The expiration sweeper *)

Definition clearBuffer {A} (b : list A) : list A := [].

(** One turn of the loop of [cleanup], from the wake-up after
    [time.Sleep]; the result tells whether the loop goes on.  The [return]
    of the source ends the goroutine. *)
Definition cleanup_iter (now : Z) : M bool :=
  Lock ;;
  closed <- get (λ w, isClosed (cache w));
  if closed then
    modify (with_sweeper Exited) ;; ret false
  else
    scratch <- get expired;
    e <- do_expire_RemoveExpired now scratch;
    do_policy_Delete e ;;
    Unlock ;;
    for_each e (λ n, hashmap_DeleteNode n ;; Die n) ;;
    modify (λ w, with_expired (clearBuffer (expired w)) w) ;;
    ret true.

(** The sweeper over a sequence of wake-ups, given by the clock readings. *)
Fixpoint cleanup (nows : list Z) : M unit :=
  match nows with
  | [] => ret tt
  | now :: nows' =>
      st <- get sweeper;
      match st with
      | Running =>
          continue <- cleanup_iter now;
          if continue then cleanup nows' else ret tt
      | _ => ret tt
      end
  end.

(** ** The maintenance loop *)

Definition bufferCapacity : Z := 64.

(** The update of the expiration policy for one task of the batch. *)
Definition expire_task (t : WriteTask) : M unit :=
  match t with
  | NewDeleteTask n => do_expire_Delete n
  | NewAddTask n =>
      live <- node_IsAlive n;
      if live then do_expire_Add n else ret tt
  | NewUpdateTask n old =>
      do_expire_Delete old ;;
      live <- node_IsAlive n;
      if live then do_expire_Add n else ret tt
  | _ => ret tt
  end.

(** The send [c.doneClear <- struct{}{}] on the unbuffered channel: it is
    taken by the caller waiting in [clear]; without one it waits. *)
Definition send_doneClear : M unit :=
  r <- get receiving;
  if r then modify (with_receiving false) ;; emit EvDoneClear
  else raise Deadlock.

(** [buffer = clearBuffer(buffer)]: the batch of the loop is emptied. *)
Definition buffer_Clear : M unit :=
  modify (λ w, with_buffer (clearBuffer (buffer w)) w) ;; emit EvBufferClear.

(** [c.isClosed = true]. *)
Definition isClosed_Set : M unit :=
  modify (upd_cache (set_isClosed true)) ;; emit EvSetClosed.

(** The body of the loop of [process] for the task [t] that
    [writeBuffer.Remove()] returned; the result tells whether the loop goes
    on ([continue], or the end of the body) or stops ([break]). *)
Definition process_task (t : WriteTask) : M bool :=
  if IsClear t || IsClose t then
    buffer_Clear ;;
    writeBuffer_Clear ;;
    Lock ;;
    do_policy_Clear ;;
    do_expire_Clear ;;
    (if IsClose t then isClosed_Set else ret tt) ;;
    Unlock ;;
    send_doneClear ;;
    if IsClose t then ret false else ret true
  else
    modify (λ w, with_buffer (buffer w ++ [t]) w) ;;
    modify (λ w, with_i (i w + 1) w) ;;
    n <- get i;
    (if n >=? bufferCapacity then
       modify (λ w, with_i (i w - bufferCapacity) w) ;;
       Lock ;;
       batch <- get buffer;
       for_each batch expire_task ;;
       scratch <- get deleted;
       d <- do_policy_Write scratch batch;
       for_each d do_expire_Delete ;;
       Unlock ;;
       for_each d (λ n, hashmap_DeleteNode n ;; Die n) ;;
       buffer_Clear ;;
       modify (λ w, with_deleted (clearBuffer (deleted w)) w)
     else ret tt) ;;
    ret true.

(** The loop of [process].  [writeBuffer.Remove()] on an empty queue parks
    the goroutine: the interpreter returns, and a later call resumes it. *)
Fixpoint process_loop (fuel : nat) : M unit :=
  match fuel with
  | O => raise OutOfFuel
  | S fuel' =>
      st <- get maintenance;
      match st with
      | Running =>
          q <- get (λ w, writeBuffer (cache w));
          match q with
          | [] => ret tt
          | t :: q' =>
              modify (upd_cache (set_writeBuffer q')) ;;
              continue <- process_task t;
              if continue then process_loop fuel'
              else modify (with_maintenance Exited)
          end
      | _ => ret tt
      end
  end.

(** Every turn removes a task, so the length of the queue bounds the number
    of turns. *)
Definition process : M unit :=
  q <- get (λ w, writeBuffer (cache w));
  process_loop (S (length q)).

(** ** Clear and Close *)

(** The receive [<-c.doneClear]: the caller waits until the maintenance
    loop sends; if the loop parks or has ended without sending, the caller
    waits for ever. *)
Definition recv_doneClear : M unit :=
  modify (with_receiving true) ;;
  process ;;
  r <- get receiving;
  if r then raise Deadlock else ret tt.

Definition clear (t : WriteTask) : M unit :=
  hashmap_Clear ;;
  modify (upd_cache (λ c, set_readBuffers (lossy_Clear <$> readBuffers c) c)) ;;
  writeBuffer_Insert t ;;
  recv_doneClear ;;
  modify (upd_cache (λ c, set_stats (stats_Clear (stats c)) c)).

Definition Clear : M unit := clear NewClearTask.

(** Modelled from the spec: the clock (package [unixtime]) counts the
    caches that use it; [Stop] gives one use back. *)
Definition unixtime_Start : M unit :=
  modify (λ w, with_clock_users (S (clock_users w)) w).

Definition unixtime_Stop : M unit :=
  modify (λ w, with_clock_users (Nat.pred (clock_users w)) w).

(** [closeOnce.Do]. *)
Definition Close : M unit :=
  done <- get (λ w, closeOnce (cache w));
  if done then ret tt
  else
    clear NewCloseTask ;;
    expiring <- get (λ w, withExpiration (cache w));
    (if expiring then unixtime_Stop else ret tt) ;;
    modify (upd_cache (set_closeOnce true)).

(** ** Size and iteration *)

(** Modelled from the spec: [hashmap.Size] counts the entries of the
    table. *)
Definition Size : M Z :=
  get (λ w, Z.of_nat (size (hashmap (cache w)))).

(** Modelled from the spec: [hashmap.Range] calls the function on the nodes
    of the table, each once, in an order of its own, until the function
    returns false.  [order] is that order.  The function is a closure: [U]
    is the state it captures. *)
Fixpoint hashmap_Range {U} (order : list ref) (f : ref → U → M (bool * U))
  (u : U) : M U :=
  match order with
  | [] => ret u
  | n :: rest =>
      r <- f n u;
      if r.1 then hashmap_Range rest f r.2 else ret r.2
  end.

(** [now n] is the reading of the clock when node [n] is visited. *)
Definition Range {U} (order : list ref) (now : ref → Z)
  (f : K → V → U → bool * U) (u : U) : M U :=
  hashmap_Range order
    (λ n u,
       o <- node n;
       match o with
       | Some nd =>
           if negb (IsAlive nd) || IsExpired (now n) nd then ret (true, u)
           else ret (f (Key nd) (Value nd) u)
       | None => ret (true, u)
       end)
    u.

Definition DeleteByFunc (order : list ref) (now : ref → Z) (f : K → V → bool)
  : M unit :=
  hashmap_Range order
    (λ n (_ : unit),
       o <- node n;
       match o with
       | Some nd =>
           if negb (IsAlive nd) || IsExpired (now n) nd then ret (true, tt)
           else
             (if f (Key nd) (Value nd) then deleteNode n else ret tt) ;;
             ret (true, tt)
       | None => ret (true, tt)
       end)
    tt.

(** ** Construction *)

Record Config := mkConfig {
  Capacity : Z;
  InitialCapacity : option Z;
  StatsEnabled : bool;
  TTL : option Z;
  WithVariableTTL : bool;
  CostFunc : K → V → Z;
  WithCost : bool;
}.

(** Modelled from the spec: [xmath.RoundUpPowerOf2] rounds up to the next
    power of two. *)
Definition RoundUpPowerOf2 (v : Z) : Z := 2 ^ Z.log2_up v.

(** [parallelism] is the reading of [xruntime.Parallelism()].  The world
    returned is the one of a fresh program: the new cache, its maintenance
    loop started, and its sweeper started if entries expire. *)
Definition NewCache (parallelism : Z) (c : Config) : World :=
  let roundedParallelism := RoundUpPowerOf2 parallelism in
  let readBuffersCount := 4 * roundedParallelism in
  let expiring := bool_decide (is_Some (TTL c)) || WithVariableTTL c in
  let expPolicy :=
    match TTL c with
    | Some _ => expire_New Fixed
    | None => if WithVariableTTL c then expire_New Variable_
              else expire_New Disabled
    end in
  {| cache := {|
       nodeManager := mk_node_Config expiring (WithCost c);
       hashmap := ∅;
       policy := NewPolicy (u32 (Capacity c));
       expirePolicy := expPolicy;
       stats := if StatsEnabled c then Some (mkStats 0 0) else None;
       readBuffers := replicate (Z.to_nat readBuffersCount) lossy_New;
       writeBuffer := [];
       evictionMutex := false;
       closeOnce := false;
       costFunc := CostFunc c;
       capacity := Capacity c;
       mask := u32 (readBuffersCount - 1);
       ttl := match TTL c with
              | Some d => u32 (Z.quot (i64 (i64 (d + Second) - 1)) Second)
              | None => 0
              end;
       withExpiration := expiring;
       isClosed := false |};
     heap := ∅;
     clock_users := if expiring then 1%nat else 0%nat;
     receiving := false;
     maintenance := Running;
     buffer := [];
     deleted := [];
     i := 0;
     sweeper := if expiring then Running else NotStarted;
     expired := [];
     trace := [] |}.

End core.

Arguments Node K V : clear implicits.
Arguments Event K : clear implicits.
Arguments Config K V : clear implicits.
Arguments EvictionPolicy K V P : clear implicits.
Arguments ExpirePolicy K V E : clear implicits.
Arguments Cache K {_ _} V P E.
Arguments World K {_ _} V P E.
Arguments Res K {_ _} V P E A.
Arguments M K {_ _} V P E A.
Arguments Ok {K _ _ V P E A} a w.
Arguments Stuck {K _ _ V P E A} f.
Arguments IsExpired {K V} now n : simpl never.
Arguments lossy_Add n b : simpl never.



(** * Worlds and invariants *)

Section views.

Context {K : Type} `{Countable K} {V : Type}.
Context {P : Type} {policy_ops : EvictionPolicy K V P}.
Context {E : Type} {expire_ops : ExpirePolicy K V E}.

Abbreviation World := (World K V P E).
Abbreviation M := (M K V P E).

(** The worlds the facade operations lead to. *)
Definition count_miss (w : World) : World :=
  upd_cache (λ c, set_stats (IncMisses (stats c)) c) w.

Definition count_hit (w : World) : World :=
  upd_cache (λ c, set_stats (IncHits (stats c)) c) w.

Definition enqueue (t : WriteTask) (w : World) : World :=
  upd_cache (λ c, set_writeBuffer (writeBuffer c ++ [t]) c) w.

Definition record (es : list (Event K)) (w : World) : World :=
  with_trace (trace w ++ es) w.

Definition allocate (key : K) (value : V) (expiration cost : Z) (w : World)
  : World :=
  with_heap
    (<[fresh (dom (heap w)) :=
         new_node (nodeManager (cache w)) key value expiration cost]>
       (heap w)) w.

Definition store (key : K) (n : ref) (w : World) : World :=
  upd_cache (λ c, set_hashmap (<[key := n]> (hashmap c)) c) w.

Definition remove (key : K) (w : World) : World :=
  upd_cache (λ c, set_hashmap (delete key (hashmap c)) c) w.

Definition bury (n : ref) (w : World) : World :=
  with_heap (alter kill n (heap w)) w.

(** The cost of an entry and the bound it is compared with. *)
Definition cost_of (key : K) (value : V) (w : World) : Z :=
  costFunc (cache w) key value.

Definition limit_of (w : World) : Z := MaxAvailableCost (policy (cache w)).

(** The read buffers can be indexed by every masked random number. *)
Definition buffers_ok (w : World) : Prop :=
  0 ≤ mask (cache w) < Z.of_nat (length (readBuffers (cache w))).

(** The buffer a read with random number [rnd] goes to. *)
Definition shard (rnd : Z) (w : World) : nat :=
  Z.to_nat (Z.land rnd (mask (cache w))).

(** The world after a read of node [n] was noted in buffer [b], the buffer
    of index [idx]: when the buffer hands out a batch, the batch is read by
    the policy under the mutex and the buffer is freed. *)
Definition read_hit (idx : nat) (n : ref) (b : Buffer) (w : World) : World :=
  let w1 :=
    upd_cache
      (set_readBuffers (<[idx := (lossy_Add n b).2]> (readBuffers (cache w))))
      w in
  match (lossy_Add n b).1 with
  | None => w1
  | Some batch =>
      upd_cache
        (λ c, set_readBuffers (alter lossy_Free idx (readBuffers c)) c)
        (record [EvUnlock]
           (upd_cache (set_evictionMutex false)
              (record [EvPolicyRead batch]
                 (upd_cache
                    (λ c, set_policy (policy_Read (heap w) batch (policy c)) c)
                    (record [EvLock]
                       (upd_cache (set_evictionMutex true) w1))))))
  end.

(** The expiration a new node of the cache keeps of the one it is given:
    none when the nodes of the cache store no expiration. *)
Definition stored_expiration (e : Z) (w : World) : Z :=
  if node_WithExpiration (nodeManager (cache w)) then e else 0.

(** The expiration [defaultExpiration] computes. *)
Definition default_expiration (now : Z) (w : World) : Z :=
  if ttl (cache w) =? 0 then 0 else u32 (now + ttl (cache w)).

(** The world after the node of an admitted entry was created. *)
Definition created (key : K) (value : V) (expiration : Z) (w : World)
  : World :=
  allocate key value expiration (cost_of key value w) w.

(** The world after the unconditional insertion of an admitted entry. *)
Definition inserted (key : K) (value : V) (expiration : Z) (w : World)
  : World :=
  let n := fresh (dom (heap w)) in
  let w1 := record [EvMapSet n] (store key n (created key value expiration w)) in
  match hashmap (cache w) !! key with
  | Some old => enqueue (NewUpdateTask n old) (record [EvDie old] (bury old w1))
  | None => enqueue (NewAddTask n) w1
  end.

(** The worlds after the insertion if absent of an admitted entry: the key
    was taken, or it was free. *)
Definition declined (key : K) (value : V) (expiration : Z) (w : World)
  : World :=
  record [EvMapSetIfAbsent (fresh (dom (heap w)))]
    (created key value expiration w).

Definition added (key : K) (value : V) (expiration : Z) (w : World)
  : World :=
  let n := fresh (dom (heap w)) in
  enqueue (NewAddTask n) (store key n (declined key value expiration w)).

(** The world after [Delete] removed node [n]. *)
Definition deleted_node (key : K) (n : ref) (w : World) : World :=
  enqueue (NewDeleteTask n)
    (record [EvDie n] (bury n (record [EvMapDelete key] (remove key w)))).

(** Every node of the hash table is in the heap, under its own key, and
    alive. *)
Definition entries_alive (w : World) : Prop :=
  ∀ k n, hashmap (cache w) !! k = Some n →
         ∃ nd, heap w !! n = Some nd ∧ Key nd = k ∧ IsAlive nd = true.

(** The hash table holds a live node for the key. *)
Definition has_live (key : K) (w : World) : Prop :=
  ∃ n nd, hashmap (cache w) !! key = Some n ∧ heap w !! n = Some nd ∧
          IsAlive nd = true.

(** What the application of a batch and a sweep leave alone. *)
Definition outline (w : World) :=
  (readBuffers (cache w), stats (cache w), writeBuffer (cache w),
   closeOnce (cache w), isClosed (cache w), withExpiration (cache w),
   clock_users w, receiving w, maintenance w, sweeper w).

(** [w] comes from [w0] by steps that keep the outline, remove entries
    from the hash table at most, and keep its nodes alive. *)
Definition frame (w0 w : World) : Prop :=
  outline w = outline w0 ∧
  hashmap (cache w) ⊆ hashmap (cache w0) ∧
  (entries_alive w0 → entries_alive w).

(** From a world where the mutex is [b], the computation returns, with a
    result in [Q], in a world within the frame where the mutex is [b']. *)
Definition steps {A} (b b' : bool) (m : M A) (Q : A → Prop) : Prop :=
  ∀ w, evictionMutex (cache w) = b →
       ∃ a w', m w = Ok a w' ∧ Q a ∧ frame w w' ∧
               evictionMutex (cache w') = b'.

(** The tasks that carry nodes. *)
Definition is_data (t : WriteTask) : Prop :=
  IsClear t = false ∧ IsClose t = false.

(** The world in which [clear] waits for the maintenance loop. *)
Definition clearing (t : WriteTask) (w : World) : World :=
  with_receiving true
    (enqueue t
       (upd_cache (λ c, set_readBuffers (lossy_Clear <$> readBuffers c) c)
          (record [EvMapClear] (upd_cache (set_hashmap ∅) w)))).

(** The world [Close] returns in, from the one its [clear] returned in. *)
Definition closed_after (w : World) : World :=
  upd_cache (set_closeOnce true)
    (if withExpiration (cache w)
     then with_clock_users (Nat.pred (clock_users w)) w
     else w).

(** The world after [deleteNode] removed node [n], stored under [key]. *)
Definition unlinked (key : K) (n : ref) (w : World) : World :=
  enqueue (NewDeleteTask n)
    (record [EvDie n] (bury n (remove key (record [EvMapDeleteNode n] w)))).

(** The entries a visitor is shown: the key and the value of the nodes of
    the order that are in the heap, alive and not expired. *)
Definition shown (now : ref → Z) (w : World) (order : list ref)
  : list (K * V) :=
  omap (λ n, match heap w !! n with
             | Some nd =>
                 if negb (IsAlive nd) || IsExpired (now n) nd then None
                 else Some (Key nd, Value nd)
             | None => None
             end) order.

(** The state of a visitor after it was shown the entries, until it
    returned false. *)
Fixpoint walk {U} (f : K → V → U → bool * U) (l : list (K * V)) (u : U) : U :=
  match l with
  | [] => u
  | (k, v) :: l' =>
      let r := f k v u in if r.1 then walk f l' r.2 else r.2
  end.

(** The order lists the nodes of the hash table, each once. *)
Definition enumerates (order : list ref) (w : World) : Prop :=
  NoDup order ∧
  ∀ n, n ∈ order ↔ ∃ k, hashmap (cache w) !! k = Some n.

(** [DeleteByFunc] removes node [n]: it is in the heap, alive, not expired,
    and the function holds of its key and value. *)
Definition chosen (now : ref → Z) (f : K → V → bool) (w : World) (n : ref)
  : bool :=
  match heap w !! n with
  | Some nd =>
      IsAlive nd && negb (IsExpired (now n) nd) && f (Key nd) (Value nd)
  | None => false
  end.

(** The computation, when it returns, leaves the view as it was. *)
Definition keeps {T A} (view : World → T) (m : M A) : Prop :=
  ∀ w a w', m w = Ok a w' → view w' = view w.

(** What is fixed when the cache is built. *)
Definition layout (w : World) :=
  (capacity (cache w), mask (cache w), ttl (cache w),
   withExpiration (cache w), costFunc (cache w),
   length (readBuffers (cache w)), nodeManager (cache w)).

(** The sizes of the batches [policy.Write] was given, in order. *)
Definition write_sizes (tr : list (Event K)) : list nat :=
  omap (λ e, match e with EvPolicyWrite b => Some (length b) | _ => None end)
       tr.

(** The counter and the batch of the maintenance loop, and what it wrote. *)
Definition loopview (w : World) := (i w, buffer w, write_sizes (trace w)).

(** The counter is below the capacity of the batch and bounds its length,
    and no batch written was longer than the capacity. *)
Definition loop_bounded (w : World) : Prop :=
  0 ≤ i w < bufferCapacity ∧
  Z.of_nat (length (buffer w)) ≤ i w ∧
  Forall (λ n, (n ≤ 64)%nat) (write_sizes (trace w)).

(** The counter is the length of the batch, and every batch written was
    full. *)
Definition loop_exact (w : World) : Prop :=
  i w = Z.of_nat (length (buffer w)) ∧
  i w < bufferCapacity ∧
  Forall (λ n, n = 64%nat) (write_sizes (trace w)).

(** The computation, when it returns from a world in [I], is in [I]. *)
Definition invariant {A} (I : World → Prop) (m : M A) : Prop :=
  ∀ w a w', I w → m w = Ok a w' → I w'.

(** Between two operations: every node of the hash table is in the heap,
    under its key and alive, and the mutex is free. *)
Definition settled (w : World) : Prop :=
  entries_alive w ∧ evictionMutex (cache w) = false.

End views.

(** ** A concrete cache: natural keys and values, a FIFO policy *)

Module Demo.

Definition drop_node (n : ref) (q : list ref) : list ref :=
  filter (λ x, x ≠ n) q.

Definition fifo_task (q : list ref) (t : WriteTask) : list ref :=
  match t with
  | NewAddTask n => q ++ [n]
  | NewUpdateTask n old => drop_node old q ++ [n]
  | NewDeleteTask n => drop_node n q
  | _ => q
  end.

Definition node_cost (h : gmap ref (Node nat nat)) (n : ref) : Z :=
  match h !! n with Some nd => Cost nd | None => 0 end.

Definition total_cost (h : gmap ref (Node nat nat)) (q : list ref) : Z :=
  foldr (λ n a, node_cost h n + a) 0 q.

Fixpoint fifo_evict (h : gmap ref (Node nat nat)) (limit : Z) (q : list ref)
  : list ref * list ref :=
  match q with
  | [] => ([], [])
  | n :: q' =>
      if total_cost h q <=? limit then ([], q)
      else let r := fifo_evict h limit q' in (n :: r.1, r.2)
  end.

(** A FIFO of capacity [limit]: the oldest nodes leave when the cost
    exceeds it. *)
#[export] Instance fifo : EvictionPolicy nat nat (Z * list ref) := {|
  NewPolicy cap := (cap, []);
  policy_Read _ _ p := p;
  policy_Write h scratch batch p :=
    let r := fifo_evict h p.1 (foldl fifo_task p.2 batch) in
    (scratch ++ r.1, (p.1, r.2));
  policy_Delete _ ns p := (p.1, foldr drop_node p.2 ns);
  policy_Clear p := (p.1, []);
  MaxAvailableCost p := p.1;
|}.

Definition is_expired (h : gmap ref (Node nat nat)) (now : Z) (n : ref)
  : bool :=
  match h !! n with Some nd => IsExpired now nd | None => false end.

(** An expiration policy that keeps the nodes in a list. *)
#[export] Instance wheel : ExpirePolicy nat nat (list ref) := {|
  expire_New _ := [];
  expire_Add _ n e := e ++ [n];
  expire_Delete _ n e := drop_node n e;
  expire_RemoveExpired h now scratch e :=
    (scratch ++ filter (λ n, is_expired h now n = true) e,
     filter (λ n, is_expired h now n ≠ true) e);
  expire_Clear _ := [];
|}.

Definition W := World nat nat (Z * list ref) (list ref).

Definition Op (A : Type) := M nat nat (Z * list ref) (list ref) A.

(** Capacity [cap], statistics on, the value of an entry as its cost, which
    the nodes store. *)
Definition config (cap : Z) (ttl : option Z) : Config nat nat :=
  mkConfig cap None true ttl false (λ _ v, Z.of_nat v) true.

(** Run a computation and keep the world ([None]: it never returns). *)
Definition exec {A} (m : Op A) (w : option W) : option W :=
  match w with
  | Some w => match m w with Ok _ w' => Some w' | Stuck _ => None end
  | None => None
  end.

(** The world a computation leads to, when it returns. *)
Definition after {A} (m : Op A) (w : W) : W :=
  match m w with Ok _ w' => w' | Stuck _ => w end.

(** Capacity 10, no TTL, two processors. *)
Definition fresh_cache : W := NewCache 2 (config 10 None).

(** Capacity 5. *)
Definition small_cache : W := NewCache 2 (config 5 None).

(** Entries live one second. *)
Definition ttl_cache : W := NewCache 2 (config 10 (Some Second)).

(** Key 7 holds value 1. *)
Definition one_key : W := after (Set_ 0 7%nat 1%nat) fresh_cache.

(** Key 7 holds value 1 until time 101. *)
Definition one_key_ttl : W := after (Set_ 100 7%nat 1%nat) ttl_cache.

(** The node of key 7 has died but is still in the hash table. *)
Definition dead_key : W := with_heap (alter kill 0%nat (heap one_key)) one_key.

(** The maintenance loop has taken the Add task of key 7 in its batch,
    and a caller of Clear waits. *)
Definition clear_pending : W :=
  clearing NewClearTask (after process one_key).

(** The same with a caller of Close. *)
Definition close_pending : W :=
  clearing NewCloseTask (after process one_key).

(** [count] entries of cost 1, under the keys from [first] on. *)
Definition burst (first count : nat) : Op unit :=
  for_each (seq first count) (λ k, bind (Set_ 0 k 1%nat) (λ _, ret tt)).

(** The batches [policy.Write] was given, in order. *)
Definition batches (tr : list (Event nat)) : list (list WriteTask) :=
  omap (λ e, match e with EvPolicyWrite b => Some b | _ => None end) tr.

(** 64 entries, then the maintenance loop runs. *)
Definition full_batch : option W :=
  exec process (exec (burst 0 64) (Some fresh_cache)).

(** 10 entries, Clear, 54 entries, then the maintenance loop runs. *)
Definition batch_after_Clear : option W :=
  exec process
    (exec (burst 100 54) (exec Clear (exec (burst 0 10) (Some fresh_cache)))).

(** The sweeper wakes up on an open cache, and after Close. *)
Definition sweep_open : option W := exec (cleanup_iter 1) (Some ttl_cache).

Definition sweep_closed : option W :=
  exec (cleanup_iter 1) (exec Close (Some ttl_cache)).

(** 64 entries that live one second, taken by the maintenance loop: the
    policies hold the ten that fit. *)
Definition swept_ready : W := after process (after (burst 0 64) ttl_cache).

End Demo.

(** * Properties *)

Section facts.

Context {K : Type} `{Countable K} {V : Type} (zeroValue : V).
Context {P : Type} {policy_ops : EvictionPolicy K V P}.
Context {E : Type} {expire_ops : ExpirePolicy K V E}.

Abbreviation World := (World K V P E).
Abbreviation M := (M K V P E).
Abbreviation steps := (steps (K:=K) (V:=V) (P:=P) (E:=E)).
Abbreviation keeps := (keeps (K:=K) (V:=V) (P:=P) (E:=E)).
Abbreviation invariant := (invariant (K:=K) (V:=V) (P:=P) (E:=E)).

Ltac run :=
  repeat (unfold bind, get, modify, ret, raise, emit in *; simpl in *).

(** ** Rejection by cost *)

Lemma set_refused key value expiration onlyIfAbsent (w : World) :
  cost_of key value w > limit_of w →
  set key value expiration onlyIfAbsent w = Ok false w.
Proof.
  unfold cost_of, limit_of, set. intros Hc. run.
  destruct (Z.gtb_spec (costFunc (cache w) key value)
              (MaxAvailableCost (policy (cache w)))); [done | lia].
Qed.

Lemma defaultExpiration_eq now (w : World) :
  defaultExpiration now w = Ok (default_expiration now w) w.
Proof.
  unfold defaultExpiration, default_expiration. run. by destruct (_ =? _).
Qed.

Lemma Set_eq now key value (w : World) :
  Set_ now key value w = set key value (default_expiration now w) false w.
Proof. unfold Set_, bind. by rewrite defaultExpiration_eq. Qed.

Lemma SetIfAbsent_eq now key value (w : World) :
  SetIfAbsent now key value w =
  set key value (default_expiration now w) true w.
Proof. unfold SetIfAbsent, bind. by rewrite defaultExpiration_eq. Qed.

Lemma cost_check key value (w : World) :
  cost_of key value w ≤ limit_of w →
  (costFunc (cache w) key value >? MaxAvailableCost (policy (cache w))) = false.
Proof. unfold cost_of, limit_of. lia. Qed.

(** ** Unconditional insertion *)

Lemma set_unconditional key value expiration (w : World) :
  cost_of key value w ≤ limit_of w →
  set key value expiration false w = Ok true (inserted key value expiration w).
Proof.
  intros Hc. unfold set, inserted. run. rewrite (cost_check _ _ _ Hc).
  unfold nodeManager_Create, hashmap_Set, node, hashmap_Get. run.
  rewrite lookup_insert_eq. simpl.
  destruct (hashmap (cache w) !! key) as [old|] eqn:Hk; reflexivity.
Qed.

(** ** Insertion if absent *)

Lemma set_if_absent key value expiration (w : World) :
  cost_of key value w ≤ limit_of w →
  set key value expiration true w =
  match hashmap (cache w) !! key with
  | Some _ => Ok false (declined key value expiration w)
  | None => Ok true (added key value expiration w)
  end.
Proof.
  intros Hc. unfold set, added, declined. run. rewrite (cost_check _ _ _ Hc).
  unfold nodeManager_Create, hashmap_SetIfAbsent, node, hashmap_Get. run.
  rewrite lookup_insert_eq. simpl.
  destruct (hashmap (cache w) !! key) as [old|] eqn:Hk; reflexivity.
Qed.

(** ** Lookup *)

Lemma Get_absent rnd now key (w : World) :
  hashmap (cache w) !! key = None →
  Get zeroValue rnd now key w = Ok (zeroValue, false) (count_miss w).
Proof. intros Hk. unfold Get, hashmap_Get. run. by rewrite Hk. Qed.

Lemma Get_dead rnd now key n nd (w : World) :
  hashmap (cache w) !! key = Some n →
  heap w !! n = Some nd →
  IsAlive nd = false →
  Get zeroValue rnd now key w = Ok (zeroValue, false) (count_miss w).
Proof.
  intros Hk Hn Ha. unfold Get, hashmap_Get, node_IsAlive, node. run.
  by rewrite Hk, Hn, Ha.
Qed.

Lemma Get_expired rnd now key n nd (w : World) :
  hashmap (cache w) !! key = Some n →
  heap w !! n = Some nd →
  IsAlive nd = true →
  IsExpired now nd = true →
  Get zeroValue rnd now key w =
  Ok (zeroValue, false) (count_miss (enqueue (NewDeleteTask n) w)).
Proof.
  intros Hk Hn Ha He.
  unfold Get, hashmap_Get, node_IsAlive, node_IsExpired, node. run.
  repeat (first [rewrite Hk | rewrite Hn | rewrite Ha | rewrite He]; simpl).
  reflexivity.
Qed.

Lemma land_mask r m : 0 ≤ m → 0 ≤ Z.land r m ≤ m.
Proof.
  intros Hm. split; [apply Z.land_nonneg; auto |].
  assert (Hd : Z.ldiff (Z.land r m) m = 0).
  { apply Z.bits_inj'. intros k Hk.
    rewrite Z.ldiff_spec, Z.land_spec, Z.bits_0.
    destruct (Z.testbit r k), (Z.testbit m k); reflexivity. }
  pose proof (Z.sub_nocarry_ldiff m (Z.land r m) Hd) as Hs.
  assert (0 ≤ Z.ldiff m (Z.land r m)) by (apply Z.ldiff_nonneg; auto).
  lia.
Qed.

Lemma shard_in_range rnd (w : World) :
  buffers_ok w → is_Some (readBuffers (cache w) !! shard rnd w).
Proof.
  unfold buffers_ok, shard. intros Hb. apply lookup_lt_is_Some.
  pose proof (land_mask rnd (mask (cache w)) (proj1 Hb)). lia.
Qed.

Lemma afterGet_spec rnd n b (w : World) :
  readBuffers (cache w) !! shard rnd w = Some b →
  evictionMutex (cache w) = false →
  afterGet rnd n w = Ok tt (read_hit (shard rnd w) n b w).
Proof.
  intros Hb Hm. unfold afterGet, getReadBufferIdx, read_hit, shard in *. run.
  rewrite Hb. simpl.
  destruct (lossy_Add n b).1 as [batch|]; [|reflexivity].
  unfold Lock, do_policy_Read, Unlock. run. rewrite Hm. reflexivity.
Qed.

Lemma Get_hit rnd now key n nd b (w : World) :
  hashmap (cache w) !! key = Some n →
  heap w !! n = Some nd →
  IsAlive nd = true →
  IsExpired now nd = false →
  readBuffers (cache w) !! shard rnd w = Some b →
  evictionMutex (cache w) = false →
  Get zeroValue rnd now key w =
  Ok (Value nd, true) (count_hit (read_hit (shard rnd w) n b w)).
Proof.
  intros Hk Hn Ha He Hb Hm.
  unfold Get, hashmap_Get, node_IsAlive, node_IsExpired, node. run.
  repeat (first [rewrite Hk | rewrite Hn | rewrite Ha | rewrite He]; simpl).
  rewrite (afterGet_spec _ _ _ _ Hb Hm).
  unfold node_Value, node. run.
  assert (Hh : heap (read_hit (shard rnd w) n b w) = heap w).
  { unfold read_hit. by destruct (lossy_Add n b).1. }
  rewrite Hh, Hn. reflexivity.
Qed.

(** ** Deletion *)

Lemma Delete_present key n (w : World) :
  hashmap (cache w) !! key = Some n →
  Delete key w = Ok tt (deleted_node key n w).
Proof.
  intros Hk. unfold Delete, hashmap_Delete, hashmap_Get, afterDelete, Die. run.
  by rewrite Hk.
Qed.

Lemma Delete_absent key (w : World) :
  hashmap (cache w) !! key = None →
  Delete key w = Ok tt (record [EvMapDelete key] w).
Proof.
  intros Hk. unfold Delete, hashmap_Delete, hashmap_Get, afterDelete. run.
  rewrite Hk. simpl. unfold record, upd_cache, with_cache, set_hashmap. simpl.
  rewrite (delete_id _ _ Hk). by destruct w as [[]].
Qed.

(** ** Steps within the frame *)

Lemma frame_refl (w : World) : frame w w.
Proof. by repeat split. Qed.

Lemma frame_trans (w0 w1 w2 : World) :
  frame w0 w1 → frame w1 w2 → frame w0 w2.
Proof.
  intros (Ho1 & Hs1 & He1) (Ho2 & Hs2 & He2). repeat split.
  - by rewrite Ho2.
  - by transitivity (hashmap (cache w1)).
  - auto.
Qed.

Lemma steps_ret {A} (a : A) (Q : A → Prop) b :
  Q a → steps b b (ret a) Q.
Proof. intros Hq w Hm. exists a, w. eauto using frame_refl. Qed.

Lemma steps_bind {A B} (m : M A) (k : A → M B) Q1 Q2 b b1 b2 :
  steps b b1 m Q1 →
  (∀ a, Q1 a → steps b1 b2 (k a) Q2) →
  steps b b2 (bind m k) Q2.
Proof.
  intros Hm Hk w Hb. destruct (Hm w Hb) as (a & w1 & E1 & Hq & Hf1 & Hb1).
  destruct (Hk a Hq w1 Hb1) as (c & w2 & E2 & Hq2 & Hf2 & Hb2).
  exists c, w2. unfold bind. rewrite E1. eauto using frame_trans.
Qed.

Lemma steps_get {A} (f : World → A) b : steps b b (get f) (λ _, True).
Proof. intros w Hm. exists (f w), w. eauto using frame_refl. Qed.

Lemma steps_modify (f : World → World) b :
  (∀ w, frame w (f w) ∧ evictionMutex (cache (f w)) = evictionMutex (cache w)) →
  steps b b (modify f) (λ _, True).
Proof.
  intros Hf w Hm. exists tt, (f w). destruct (Hf w) as [? Hb].
  split; [done |]. split; [done |]. split; [done |]. by rewrite Hb.
Qed.

Lemma steps_for_each {A} (l : list A) (f : A → M unit) b :
  (∀ x, steps b b (f x) (λ _, True)) →
  steps b b (for_each l f) (λ _, True).
Proof.
  intros Hf. induction l as [|x l IH]; simpl.
  - by apply steps_ret.
  - eapply steps_bind; [apply Hf | auto].
Qed.

(** A change outside the outline, the hash table and the heap. *)
Lemma frame_same (w w' : World) :
  outline w' = outline w →
  hashmap (cache w') = hashmap (cache w) →
  heap w' = heap w →
  frame w w'.
Proof.
  intros Ho Hh Hp. repeat split; [done | by rewrite Hh |].
  unfold entries_alive. by rewrite Hh, Hp.
Qed.

Ltac quiet :=
  apply steps_modify; intros ?; split; [by apply frame_same | done].

Lemma steps_emit e b : steps b b (emit e) (λ _, True).
Proof. unfold emit. quiet. Qed.

Lemma steps_Lock : steps false true Lock (λ _, True).
Proof.
  intros w Hm. unfold Lock. run. rewrite Hm.
  do 2 eexists. split; [done |]. split; [done |].
  split; [by apply frame_same | done].
Qed.

Lemma steps_Unlock : steps true false Unlock (λ _, True).
Proof.
  intros w Hm. unfold Unlock. run. rewrite Hm.
  do 2 eexists. split; [done |]. split; [done |].
  split; [by apply frame_same | done].
Qed.

Lemma steps_node_IsAlive n b : steps b b (node_IsAlive n) (λ _, True).
Proof.
  unfold node_IsAlive, node. eapply steps_bind; [apply steps_get |].
  intros [nd|] _; by apply steps_ret.
Qed.

Lemma steps_expire_Add n b : steps b b (do_expire_Add n) (λ _, True).
Proof.
  unfold do_expire_Add.
  eapply steps_bind; [quiet | intros; apply steps_emit].
Qed.

Lemma steps_expire_Delete n b : steps b b (do_expire_Delete n) (λ _, True).
Proof.
  unfold do_expire_Delete.
  eapply steps_bind; [quiet | intros; apply steps_emit].
Qed.

Lemma steps_expire_task t b : steps b b (expire_task t) (λ _, True).
Proof.
  destruct t; simpl; try by apply steps_ret.
  - eapply steps_bind; [apply steps_node_IsAlive |].
    intros [] _; [apply steps_expire_Add | by apply steps_ret].
  - eapply steps_bind; [apply steps_expire_Delete |]. intros _ _.
    eapply steps_bind; [apply steps_node_IsAlive |].
    intros [] _; [apply steps_expire_Add | by apply steps_ret].
  - apply steps_expire_Delete.
Qed.

Lemma steps_policy_Write scratch batch b :
  steps b b (do_policy_Write scratch batch) (λ _, True).
Proof.
  unfold do_policy_Write. eapply steps_bind; [apply steps_get |].
  intros r _. eapply steps_bind; [quiet |]. intros _ _.
  eapply steps_bind; [apply steps_emit |]. intros _ _. by apply steps_ret.
Qed.

Lemma alive_after_bury (w w' : World) n :
  entries_alive w →
  heap w' = alter kill n (heap w) →
  hashmap (cache w') ⊆ hashmap (cache w) →
  (∀ k, hashmap (cache w') !! k ≠ Some n) →
  entries_alive w'.
Proof.
  intros Hw Hh Hs Hn k m Hk.
  assert (Hk0 : hashmap (cache w) !! k = Some m)
    by (eapply lookup_weaken; eauto).
  destruct (Hw k m Hk0) as (md & Hm & Hkey & Ha). exists md.
  rewrite Hh, lookup_alter_ne; [done |]. intros ->. by apply (Hn k).
Qed.

(** The removal of an evicted or expired node, as the workers do it. *)
Lemma evict_one n (w : World) :
  ∃ w', bind (hashmap_DeleteNode n) (λ _, Die n) w = Ok tt w' ∧
        trace w' = trace w ++ [EvMapDeleteNode n; EvDie n] ∧
        frame w w' ∧
        evictionMutex (cache w') = evictionMutex (cache w).
Proof.
  unfold hashmap_DeleteNode, Die, node, hashmap_Get. run.
  destruct (heap w !! n) as [nd|] eqn:Hn; simpl;
    [destruct (hashmap (cache w) !! Key nd) as [p|] eqn:Hk; simpl;
       [case_bool_decide; simpl |] |];
    eexists; (split; [reflexivity |]); simpl;
    (split; [by rewrite <- app_assoc |]);
    (split; [| done]); (split; [done |]); simpl.
  - subst p. split; [apply delete_subseteq |]. intros Hw.
    eapply alive_after_bury; eauto; simpl; [apply delete_subseteq |].
    intros k Hk'. apply lookup_delete_Some in Hk' as [Hne Hk'].
    destruct (Hw _ _ Hk') as (md & Hmd & Hkey & _). congruence.
  - split; [done |]. intros Hw. eapply alive_after_bury; eauto; simpl.
    intros k Hk'. destruct (Hw _ _ Hk') as (md & Hmd & Hkey & _). congruence.
  - split; [done |]. intros Hw. eapply alive_after_bury; eauto; simpl.
    intros k Hk'. destruct (Hw _ _ Hk') as (md & Hmd & Hkey & _). congruence.
  - split; [done |]. intros Hw. eapply alive_after_bury; eauto; simpl.
    intros k Hk'. destruct (Hw _ _ Hk') as (md & Hmd & Hkey & _). congruence.
Qed.

Lemma steps_evict n b :
  steps b b (bind (hashmap_DeleteNode n) (λ _, Die n)) (λ _, True).
Proof.
  intros w Hm. destruct (evict_one n w) as (w' & Ev & _ & Hf & Hm').
  exists tt, w'. rewrite Hm'. done.
Qed.

Lemma evict_all l : ∀ w : World,
  ∃ w', for_each l (λ n, bind (hashmap_DeleteNode n) (λ _, Die n)) w =
          Ok tt w' ∧
        trace w' =
          trace w ++ flat_map (λ n, [EvMapDeleteNode n; EvDie n]) l ∧
        frame w w' ∧
        evictionMutex (cache w') = evictionMutex (cache w).
Proof.
  induction l as [|n l IH]; intros w; simpl.
  - exists w. rewrite app_nil_r. eauto using frame_refl.
  - destruct (evict_one n w) as (w1 & E1 & Ht1 & Hf1 & Hm1).
    destruct (IH w1) as (w2 & E2 & Ht2 & Hf2 & Hm2).
    exists w2. unfold bind at 1. rewrite E1.
    split; [done |]. split; [| split].
    + rewrite Ht2, Ht1, <- app_assoc. done.
    + by eapply frame_trans.
    + congruence.
Qed.

(** The body of the maintenance loop for a task that carries nodes
    returns, asks for the next turn, and keeps the frame. *)
Lemma steps_process_data t :
  is_data t → steps false false (process_task t) (λ c, c = true).
Proof.
  intros [Hclear Hclose]. unfold process_task. rewrite Hclear, Hclose. simpl.
  eapply steps_bind; [quiet |]. intros _ _.
  eapply steps_bind; [quiet |]. intros _ _.
  eapply steps_bind; [apply steps_get |]. intros n _.
  eapply steps_bind with (Q1 := λ _, True); [| intros; by apply steps_ret].
  destruct (n >=? bufferCapacity); [| by apply steps_ret].
  eapply steps_bind; [quiet |]. intros _ _.
  eapply steps_bind; [apply steps_Lock |]. intros _ _.
  eapply steps_bind; [apply steps_get |]. intros batch _.
  eapply steps_bind; [apply steps_for_each; intros; apply steps_expire_task |]. intros _ _.
  eapply steps_bind; [apply steps_get |]. intros scratch _.
  eapply steps_bind; [apply steps_policy_Write |]. intros d _.
  eapply steps_bind; [apply steps_for_each; intros; apply steps_expire_Delete |].
  intros _ _.
  eapply steps_bind; [apply steps_Unlock |]. intros _ _.
  eapply steps_bind; [apply steps_for_each; intros; apply steps_evict |].
  intros _ _.
  eapply steps_bind; [quiet |]. intros _ _. quiet.
Qed.

(** ** The facade *)

(** C3.  An entry whose cost exceeds [MaxAvailableCost] is refused by every
    variant of Set: the call returns false and leaves the whole world as it
    was (no node is created, the hash table and the write queue are
    untouched).  A cost equal to [MaxAvailableCost] passes the check: the
    unconditional variants insert and return true, and the variants if
    absent create the node and answer by the hash table alone. *)
Theorem Set_cost_check now duration key value (w : World) :
  (cost_of key value w > limit_of w →
     Set_ now key value w = Ok false w ∧
     SetWithTTL now key value duration w = Ok false w ∧
     SetIfAbsent now key value w = Ok false w ∧
     SetIfAbsentWithTTL now key value duration w = Ok false w) ∧
  (cost_of key value w = limit_of w →
     Set_ now key value w =
       Ok true (inserted key value (default_expiration now w) w) ∧
     SetWithTTL now key value duration w =
       Ok true (inserted key value (getExpiration now duration) w) ∧
     (∃ w', SetIfAbsent now key value w =
              Ok (bool_decide (hashmap (cache w) !! key = None)) w' ∧
            heap w' = heap (created key value (default_expiration now w) w)) ∧
     (∃ w', SetIfAbsentWithTTL now key value duration w =
              Ok (bool_decide (hashmap (cache w) !! key = None)) w' ∧
            heap w' = heap (created key value (getExpiration now duration) w))).
Proof.
  split.
  - intros Hc. rewrite Set_eq, SetIfAbsent_eq.
    unfold SetWithTTL, SetIfAbsentWithTTL.
    by rewrite !set_refused.
  - intros Hc. assert (Hle : cost_of key value w ≤ limit_of w) by lia.
    rewrite Set_eq, SetIfAbsent_eq. unfold SetWithTTL, SetIfAbsentWithTTL.
    rewrite !set_unconditional, !set_if_absent by done.
    repeat split; try done.
    + destruct (hashmap (cache w) !! key); eexists; split; done.
    + destruct (hashmap (cache w) !! key); eexists; split; done.
Qed.

(** C4.  Get misses, counting a miss and returning the zero value and
    false, when the hash table has no node for the key, when the node found
    is not alive, and when it is alive but expired; in this last case a
    Delete task for the node is enqueued first.  Otherwise Get notes the
    read in the buffer the random number selects, counts a hit, and returns
    the value of the node and true. *)
Theorem Get_cases rnd now key (w : World) :
  (hashmap (cache w) !! key = None →
     Get zeroValue rnd now key w = Ok (zeroValue, false) (count_miss w)) ∧
  (∀ n nd,
     hashmap (cache w) !! key = Some n → heap w !! n = Some nd →
     (IsAlive nd = false →
        Get zeroValue rnd now key w = Ok (zeroValue, false) (count_miss w)) ∧
     (IsAlive nd = true → IsExpired now nd = true →
        Get zeroValue rnd now key w =
        Ok (zeroValue, false) (count_miss (enqueue (NewDeleteTask n) w))) ∧
     (IsAlive nd = true → IsExpired now nd = false →
      buffers_ok w → evictionMutex (cache w) = false →
        ∃ b, readBuffers (cache w) !! shard rnd w = Some b ∧
             Get zeroValue rnd now key w =
             Ok (Value nd, true) (count_hit (read_hit (shard rnd w) n b w)))).
Proof.
  split; [apply Get_absent |]. intros n nd Hk Hn. repeat split.
  - intros Ha. eapply Get_dead; eauto.
  - intros Ha He. eapply Get_expired; eauto.
  - intros Ha He Hb Hm. destruct (shard_in_range rnd w Hb) as [b Hlook].
    exists b. split; [done |]. by apply Get_hit.
Qed.

(** C5.  For an entry of admitted cost, Set and SetWithTTL insert the new
    node with one call on the hash table and return true; a displaced node
    dies and an Update task (new, old) is enqueued, and without a displaced
    node an Add task is enqueued. *)
Theorem Set_inserts now duration key value (w : World) :
  cost_of key value w ≤ limit_of w →
  Set_ now key value w =
    Ok true (inserted key value (default_expiration now w) w) ∧
  SetWithTTL now key value duration w =
    Ok true (inserted key value (getExpiration now duration) w) ∧
  ∀ e,
    let n := fresh (dom (heap w)) in
    let nd :=
      new_node (nodeManager (cache w)) key value e (cost_of key value w) in
    let w' := inserted key value e w in
    hashmap (cache w') = <[key := n]> (hashmap (cache w)) ∧
    match hashmap (cache w) !! key with
    | Some old =>
        heap w' = alter kill old (<[n := nd]> (heap w)) ∧
        writeBuffer (cache w') =
          writeBuffer (cache w) ++ [NewUpdateTask n old] ∧
        trace w' = trace w ++ [EvMapSet n; EvDie old]
    | None =>
        heap w' = <[n := nd]> (heap w) ∧
        writeBuffer (cache w') = writeBuffer (cache w) ++ [NewAddTask n] ∧
        trace w' = trace w ++ [EvMapSet n]
    end.
Proof.
  intros Hc. rewrite Set_eq. unfold SetWithTTL.
  rewrite !set_unconditional by done.
  split; [done |]. split; [done |].
  intros e. unfold inserted.
  destruct (hashmap (cache w) !! key) as [old|] eqn:Hk; simpl;
    rewrite <- ?app_assoc; done.
Qed.

Lemma present_is_live key (w : World) :
  entries_alive w →
  has_live key w ↔ is_Some (hashmap (cache w) !! key).
Proof.
  intros Hw. split.
  - intros (n & nd & Hk & _). eauto.
  - intros [n Hk]. destruct (Hw _ _ Hk) as (nd & Hn & _ & Ha).
    by exists n, nd.
Qed.

(** C6.  For an entry of admitted cost, SetIfAbsent and SetIfAbsentWithTTL
    return false when the hash table holds a live node for the key, and then
    leave the hash table and the write queue as they were; otherwise they
    insert the new node, enqueue an Add task for it and return true.  On a
    cache without default TTL, SetIfAbsent(k, v1) on a free key returns
    true, a second SetIfAbsent(k, v2) returns false, and Get(k) then returns
    (v1, true). *)
Theorem SetIfAbsent_cases now duration key value (w : World) :
  entries_alive w →
  cost_of key value w ≤ limit_of w →
  (has_live key w →
     SetIfAbsent now key value w =
       Ok false (declined key value (default_expiration now w) w) ∧
     SetIfAbsentWithTTL now key value duration w =
       Ok false (declined key value (getExpiration now duration) w)) ∧
  (¬ has_live key w →
     SetIfAbsent now key value w =
       Ok true (added key value (default_expiration now w) w) ∧
     SetIfAbsentWithTTL now key value duration w =
       Ok true (added key value (getExpiration now duration) w)) ∧
  (∀ e,
     let n := fresh (dom (heap w)) in
     hashmap (cache (declined key value e w)) = hashmap (cache w) ∧
     writeBuffer (cache (declined key value e w)) = writeBuffer (cache w) ∧
     hashmap (cache (added key value e w)) = <[key := n]> (hashmap (cache w)) ∧
     heap (added key value e w) !! n =
       Some (new_node (nodeManager (cache w)) key value e
               (cost_of key value w)) ∧
     writeBuffer (cache (added key value e w)) =
       writeBuffer (cache w) ++ [NewAddTask n]) ∧
  (∀ value2 now2 now3 rnd,
     ¬ has_live key w →
     cost_of key value2 w ≤ limit_of w →
     ttl (cache w) = 0 →
     buffers_ok w →
     evictionMutex (cache w) = false →
     ∃ w1 w2 w3,
       SetIfAbsent now key value w = Ok true w1 ∧
       SetIfAbsent now2 key value2 w1 = Ok false w2 ∧
       Get zeroValue rnd now3 key w2 = Ok (value, true) w3).
Proof.
  intros Hw Hc. rewrite SetIfAbsent_eq. unfold SetIfAbsentWithTTL.
  rewrite !set_if_absent by done.
  pose proof (present_is_live key w Hw) as Hlive.
  split; [|split; [|split]].
  - intros [n Hk]%Hlive. by rewrite Hk.
  - intros Hno. destruct (hashmap (cache w) !! key) eqn:Hk; [|done].
    destruct Hno. apply Hlive. eauto.
  - intros e. unfold added, declined, created, allocate. simpl.
    by rewrite lookup_insert_eq.
  - intros value2 now2 now3 rnd Hno Hc2 Httl Hb Hm.
    destruct (hashmap (cache w) !! key) eqn:Hk;
      [destruct Hno; apply Hlive; eauto |].
    set (e := default_expiration now w).
    assert (He : e = 0) by (unfold e, default_expiration; by rewrite Httl).
    set (w1 := added key value e w).
    set (n := fresh (dom (heap w))).
    assert (Hk1 : hashmap (cache w1) !! key = Some n)
      by (unfold w1, added; simpl; apply lookup_insert_eq).
    assert (Hc1 : cost_of key value2 w1 ≤ limit_of w1) by done.
    exists w1, (declined key value2 (default_expiration now2 w1) w1).
    rewrite SetIfAbsent_eq, (set_if_absent _ _ _ _ Hc1), Hk1.
    set (w2 := declined _ _ _ w1).
    assert (Hn1 : heap w1 !! n =
                  Some (new_node (nodeManager (cache w)) key value e
                          (cost_of key value w)))
      by (unfold w1, added, declined, created, allocate; simpl;
          apply lookup_insert_eq).
    assert (Hn2 : heap w2 !! n =
                  Some (new_node (nodeManager (cache w)) key value e
                          (cost_of key value w))).
    { assert (Hin : n ∈ dom (heap w1)) by (apply elem_of_dom; eauto).
      unfold w2, declined, created, allocate. simpl.
      rewrite lookup_insert_ne; [done |].
      intros Heq. rewrite <- Heq in Hin. by apply is_fresh in Hin. }
    destruct (shard_in_range rnd w2 Hb) as [b Hlook].
    eexists. split; [done |]. split; [done |].
    erewrite Get_hit; eauto.
    all: unfold IsExpired, new_node; simpl; rewrite ?He;
      by destruct (node_WithExpiration (nodeManager (cache w))).
Qed.

(** C7.  Delete removes the node of the key from the hash table.  When a
    node was removed it dies and a Delete task for it is enqueued; when the
    key had no node, nothing dies and nothing is enqueued: the world changes
    by the record of the call only.  So a second Delete of the key, with
    nothing in between, changes nothing. *)
Theorem Delete_cases key (w : World) :
  (∀ n, hashmap (cache w) !! key = Some n →
     Delete key w = Ok tt (deleted_node key n w) ∧
     hashmap (cache (deleted_node key n w)) = delete key (hashmap (cache w)) ∧
     heap (deleted_node key n w) = alter kill n (heap w) ∧
     writeBuffer (cache (deleted_node key n w)) =
       writeBuffer (cache w) ++ [NewDeleteTask n] ∧
     trace (deleted_node key n w) = trace w ++ [EvMapDelete key; EvDie n]) ∧
  (hashmap (cache w) !! key = None →
     Delete key w = Ok tt (record [EvMapDelete key] w)) ∧
  (∃ w1, Delete key w = Ok tt w1 ∧
         Delete key w1 = Ok tt (record [EvMapDelete key] w1)).
Proof.
  split; [|split].
  - intros n Hk. split; [by apply Delete_present |].
    unfold deleted_node. simpl. by rewrite <- app_assoc.
  - apply Delete_absent.
  - destruct (hashmap (cache w) !! key) as [n|] eqn:Hk.
    + exists (deleted_node key n w). split; [by apply Delete_present |].
      apply Delete_absent. unfold deleted_node. simpl. apply lookup_delete_eq.
    + exists (record [EvMapDelete key] w). split; by apply Delete_absent.
Qed.

(** C10.  Has is Get with the value dropped: it returns the boolean of Get
    in the world Get leads to, so with the same count of a miss or a hit,
    the same read noted in the buffers and the same Delete task for an
    expired node; and it does not return when Get does not. *)
Theorem Has_is_Get rnd now key (w : World) :
  Has zeroValue rnd now key w =
    match Get zeroValue rnd now key w with
    | Ok r w' => Ok r.2 w'
    | Stuck f => Stuck f
    end ∧
  (hashmap (cache w) !! key = None →
     Has zeroValue rnd now key w = Ok false (count_miss w)) ∧
  (∀ n nd,
     hashmap (cache w) !! key = Some n → heap w !! n = Some nd →
     (IsAlive nd = false →
        Has zeroValue rnd now key w = Ok false (count_miss w)) ∧
     (IsAlive nd = true → IsExpired now nd = true →
        Has zeroValue rnd now key w =
        Ok false (count_miss (enqueue (NewDeleteTask n) w))) ∧
     (IsAlive nd = true → IsExpired now nd = false →
      buffers_ok w → evictionMutex (cache w) = false →
        ∃ b, readBuffers (cache w) !! shard rnd w = Some b ∧
             Has zeroValue rnd now key w =
             Ok true (count_hit (read_hit (shard rnd w) n b w)))).
Proof.
  assert (Heq : Has zeroValue rnd now key w =
                match Get zeroValue rnd now key w with
                | Ok r w' => Ok r.2 w'
                | Stuck f => Stuck f
                end).
  { unfold Has, bind. by destruct (Get zeroValue rnd now key w). }
  split; [done |]. rewrite Heq. split.
  - intros Hk. by rewrite Get_absent.
  - intros n nd Hk Hn. repeat split.
    + intros Ha. by erewrite Get_dead.
    + intros Ha He. by erewrite Get_expired.
    + intros Ha He Hb Hm. destruct (shard_in_range rnd w Hb) as [b Hlook].
      exists b. split; [done |]. by erewrite Get_hit.
Qed.

(** ** The maintenance loop *)

Lemma process_loop_control fuel t q (w : World) :
  IsClear t = true ∨ IsClose t = true →
  writeBuffer (cache w) = t :: q →
  maintenance w = Running →
  evictionMutex (cache w) = false →
  receiving w = true →
  ∃ w', process_loop (S (S fuel)) w = Ok tt w' ∧
        buffer w' = [] ∧
        writeBuffer (cache w') = [] ∧
        policy (cache w') = policy_Clear (policy (cache w)) ∧
        expirePolicy (cache w') = expire_Clear (expirePolicy (cache w)) ∧
        isClosed (cache w') = (IsClose t || isClosed (cache w)) ∧
        evictionMutex (cache w') = false ∧
        receiving w' = false ∧
        trace w' =
          trace w ++
          [EvBufferClear; EvQueueClear; EvLock; EvPolicyClear;
           EvExpireClear] ++
          (if IsClose t then [EvSetClosed] else []) ++
          [EvUnlock; EvDoneClear] ∧
        maintenance w' = (if IsClose t then Exited else Running) ∧
        hashmap (cache w') = hashmap (cache w) ∧
        heap w' = heap w ∧
        outline w' =
          (readBuffers (cache w), stats (cache w), [],
           closeOnce (cache w), IsClose t || isClosed (cache w),
           withExpiration (cache w), clock_users w, false,
           (if IsClose t then Exited else Running), sweeper w).
Proof.
  intros Ht Hq Hrun Hm Hr.
  destruct w as [c hp cu rc mt bf dl ii sw ex tr]. destruct c.
  simpl in Hq, Hrun, Hm, Hr. subst.
  destruct t; simpl in Ht; try (by destruct Ht);
    (eexists; split; [lazy -[app]; reflexivity |]); simpl;
    rewrite <- ?app_assoc; simpl; repeat split; done.
Qed.

(** C9.  When the maintenance loop takes a Clear or a Close task from the
    queue, it drops the pending batch without giving it to the policy,
    empties the rest of the queue, then, between Lock and Unlock, clears the
    eviction policy and the expiration policy and, for Close only, sets the
    closed flag, then sends on the done channel; after that the loop ends
    for Close and goes on, to wait for the next task, for Clear.  The trace
    gives the steps in this order, and no other call: the batch and the
    queue are emptied before Lock, the flag is set before Unlock, and the
    send comes last. *)
Theorem process_clear_or_close t q (w : World) :
  IsClear t = true ∨ IsClose t = true →
  writeBuffer (cache w) = t :: q →
  maintenance w = Running →
  evictionMutex (cache w) = false →
  receiving w = true →
  ∃ w', process w = Ok tt w' ∧
        buffer w' = [] ∧
        writeBuffer (cache w') = [] ∧
        policy (cache w') = policy_Clear (policy (cache w)) ∧
        expirePolicy (cache w') = expire_Clear (expirePolicy (cache w)) ∧
        isClosed (cache w') = (IsClose t || isClosed (cache w)) ∧
        evictionMutex (cache w') = false ∧
        receiving w' = false ∧
        trace w' =
          trace w ++
          [EvBufferClear; EvQueueClear; EvLock; EvPolicyClear;
           EvExpireClear] ++
          (if IsClose t then [EvSetClosed] else []) ++
          [EvUnlock; EvDoneClear] ∧
        maintenance w' = (if IsClose t then Exited else Running) ∧
        hashmap (cache w') = hashmap (cache w) ∧
        heap w' = heap w.
Proof.
  intros Ht Hq Hrun Hm Hr.
  destruct (process_loop_control (length q) t q w Ht Hq Hrun Hm Hr)
    as (w' & Hp & Hrest).
  exists w'. unfold process, bind, get. rewrite Hq. simpl length.
  split; [exact Hp |]. tauto.
Qed.

(** ** Close *)

Lemma process_loop_S fuel (w : World) :
  process_loop (S fuel) w =
  match maintenance w with
  | Running =>
      match writeBuffer (cache w) with
      | [] => Ok tt w
      | t :: q' =>
          match process_task t (upd_cache (set_writeBuffer q') w) with
          | Ok c w' =>
              if c then process_loop fuel w'
              else Ok tt (with_maintenance Exited w')
          | Stuck f => Stuck f
          end
      end
  | _ => Ok tt w
  end.
Proof.
  simpl. unfold bind, get, modify.
  destruct (maintenance w); try reflexivity.
  destruct (writeBuffer (cache w)); try reflexivity.
  destruct (process_task _ _) as [[] ?|]; reflexivity.
Qed.

Lemma frame_pop rest (w w2 : World) :
  frame w w2 →
  frame (upd_cache (set_writeBuffer rest) w)
        (upd_cache (set_writeBuffer rest) w2).
Proof.
  intros (Ho & Hs & He). unfold outline in Ho. simplify_eq.
  split; [| split; [done |]].
  - unfold outline. simpl. congruence.
  - intros Hw. by apply He.
Qed.

(** The loop takes the tasks that carry nodes one by one, whatever the
    policy does with the batches. *)
Lemma process_loop_data q : ∀ fuel rest (w : World),
  Forall is_data q →
  writeBuffer (cache w) = q ++ rest →
  maintenance w = Running →
  evictionMutex (cache w) = false →
  ∃ w1, process_loop (length q + fuel) w = process_loop fuel w1 ∧
        frame (upd_cache (set_writeBuffer rest) w) w1 ∧
        evictionMutex (cache w1) = false.
Proof.
  induction q as [|t q IH]; intros fuel rest w Hd Hq Hrun Hm.
  - exists w. split; [done |]. split; [| done].
    simpl in Hq. apply frame_same; [| done | done].
    unfold outline. simpl. by rewrite Hq.
  - apply Forall_cons in Hd as [Ht Hd]. simpl length.
    change (S (length q) + fuel)%nat with (S (length q + fuel)).
    rewrite process_loop_S, Hrun, Hq. simpl.
    destruct (steps_process_data t Ht (upd_cache (set_writeBuffer (q ++ rest)) w))
      as (c & w2 & E2 & -> & Hf2 & Hm2); [done |].
    rewrite E2.
    pose proof Hf2 as (Ho2 & _). unfold outline in Ho2. simpl in Ho2.
    destruct (IH fuel rest w2 Hd) as (w1 & E1 & Hf1 & Hm1);
      [congruence | congruence | done |].
    exists w1. split; [done |]. split; [| done].
    eapply frame_trans; [| exact Hf1].
    apply (frame_pop rest) in Hf2.
    eapply frame_trans; [| exact Hf2].
    apply frame_same; done.
Qed.

Lemma clear_eq t (w : World) :
  clear t w =
  match process (clearing t w) with
  | Ok _ w1 =>
      if receiving w1 then Stuck Deadlock
      else Ok tt (upd_cache (λ c, set_stats (stats_Clear (stats c)) c) w1)
  | Stuck f => Stuck f
  end.
Proof.
  unfold clear, recv_doneClear, hashmap_Clear, writeBuffer_Insert, clearing.
  run. destruct (process _) as [[] w1|]; [| done].
  by destruct (receiving w1).
Qed.

Lemma Close_eq (w : World) :
  closeOnce (cache w) = false →
  Close w =
  match clear NewCloseTask w with
  | Ok _ w1 => Ok tt (closed_after w1)
  | Stuck f => Stuck f
  end.
Proof.
  intros Hc. unfold Close, closed_after, unixtime_Stop. run. rewrite Hc.
  destruct (clear _ w) as [[] w1|]; [| done].
  by destruct (withExpiration (cache w1)).
Qed.

Lemma Close_again (w : World) :
  closeOnce (cache w) = true → Close w = Ok tt w.
Proof. intros Hc. unfold Close. run. by rewrite Hc. Qed.

(** C8.  Close is idempotent.  On a cache that was not closed, with the
    maintenance loop running, the mutex free and no Clear or Close pending,
    the first call returns after the acknowledgment of the maintenance
    loop, which has then ended: the hash table is empty, the read buffers
    and the statistics are cleared, the closed flag is set (by the loop,
    under the mutex), and the clock has one user less if entries expire.
    Every later call returns at once in the same world. *)
Theorem Close_idempotent (w : World) :
  (closeOnce (cache w) = true → Close w = Ok tt w) ∧
  (closeOnce (cache w) = false →
   maintenance w = Running →
   evictionMutex (cache w) = false →
   Forall is_data (writeBuffer (cache w)) →
   ∃ w', Close w = Ok tt w' ∧
         hashmap (cache w') = ∅ ∧
         readBuffers (cache w') = lossy_Clear <$> readBuffers (cache w) ∧
         writeBuffer (cache w') = [] ∧
         stats (cache w') = stats_Clear (stats (cache w)) ∧
         isClosed (cache w') = true ∧
         maintenance w' = Exited ∧
         receiving w' = false ∧
         (∃ before,
            trace w' =
            before ++
            [EvBufferClear; EvQueueClear; EvLock; EvPolicyClear;
             EvExpireClear; EvSetClosed; EvUnlock; EvDoneClear]) ∧
         clock_users w' =
           (if withExpiration (cache w) then Nat.pred (clock_users w)
            else clock_users w) ∧
         closeOnce (cache w') = true ∧
         Close w' = Ok tt w').
Proof.
  split; [apply Close_again |]. intros Hc Hrun Hm Hd.
  rewrite (Close_eq w Hc), clear_eq.
  set (wa := clearing NewCloseTask w).
  assert (Hqa : writeBuffer (cache wa) = writeBuffer (cache w) ++ [NewCloseTask])
    by done.
  destruct (process_loop_data (writeBuffer (cache w)) 2 [NewCloseTask] wa Hd Hqa)
    as (w1 & E1 & (Ho1 & Hs1 & _) & Hm1); [done | done |].
  unfold outline in Ho1. simpl in Ho1.
  injection Ho1 as Hrb1 Hst1 Hq1 Hco1 Hic1 Hwe1 Hcu1 Hrc1 Hmt1 Hsw1.
  destruct (process_loop_control 0 NewCloseTask [] w1)
    as (w2 & E2 & _ & Hq2 & _ & _ & Hic2 & Hm2 & Hrc2 & Htr2 & Hmt2 & Hh2 & _ & Ho2);
    [by right | done | congruence | done | done |].
  unfold outline in Ho2. simpl in Ho2, Hic2, Hmt2, Htr2.
  injection Ho2 as Hrb2 Hst2 _ Hco2 _ Hwe2 Hcu2 _ _ Hsw2.
  assert (Hp : process wa = Ok tt w2).
  { unfold process, bind, get. rewrite Hqa, length_app. simpl length.
    replace (S (length (writeBuffer (cache w)) + 1))
      with (length (writeBuffer (cache w)) + 2)%nat by lia.
    by rewrite E1. }
  rewrite Hp, Hrc2.
  eexists. split; [reflexivity |].
  assert (Hempty : hashmap (cache w2) = ∅).
  { rewrite Hh2. apply map_empty. intros k.
    destruct (hashmap (cache w1) !! k) eqn:Hk; [| done].
    eapply lookup_weaken in Hk; [| exact Hs1]. done. }
  assert (Hwe : withExpiration (cache w2) = withExpiration (cache w))
    by (rewrite Hwe2, Hwe1; done).
  unfold closed_after. simpl. rewrite Hwe.
  destruct (withExpiration (cache w)); simpl;
    rewrite ?Hrb2, ?Hrb1, ?Hst2, ?Hst1, ?Hcu2, ?Hcu1;
    (repeat split; try done; try (by exists (trace w1)));
    by apply Close_again.
Qed.

(** ** The sweeper *)

(** While the cache is open, a turn of the sweeper releases the mutex
    before it touches the hash table. *)
Lemma cleanup_iter_open now (w : World) :
  isClosed (cache w) = false →
  evictionMutex (cache w) = false →
  ∃ e w', cleanup_iter now w = Ok true w' ∧
          trace w' =
            trace w ++
            [EvLock; EvExpireRemoveExpired; EvPolicyDelete e; EvUnlock] ++
            flat_map (λ n, [EvMapDeleteNode n; EvDie n]) e ∧
          frame w w' ∧
          evictionMutex (cache w') = false.
Proof.
  intros Hc Hm.
  unfold cleanup_iter, Lock, do_expire_RemoveExpired, do_policy_Delete, Unlock.
  run. rewrite Hm. simpl. rewrite Hc. simpl.
  set (r := expire_RemoveExpired (heap w) now (expired w)
              (expirePolicy (cache w))).
  match goal with
  | |- context [for_each _ ?f ?w0] =>
      destruct (evict_all r.1 w0) as (w2 & E2 & Ht2 & Hf2 & Hm2)
  end.
  simpl in E2. unfold bind in E2. simpl in E2.
  exists r.1. eexists. rewrite E2. split; [reflexivity |]. simpl.
  split; [| split].
  - rewrite Ht2. simpl. rewrite <- !app_assoc. done.
  - eapply frame_trans;
      [| eapply frame_trans; [exact Hf2 | by apply frame_same]].
    by apply frame_same.
  - by rewrite Hm2.
Qed.

(** Once the cache is closed, the sweeper ends with the mutex locked. *)
Lemma cleanup_iter_closed now (w : World) :
  isClosed (cache w) = true →
  evictionMutex (cache w) = false →
  cleanup_iter now w =
  Ok false
    (with_sweeper Exited
       (record [EvLock] (upd_cache (set_evictionMutex true) w))).
Proof.
  intros Hc Hm. unfold cleanup_iter, Lock. run. rewrite Hm. simpl.
  by rewrite Hc.
Qed.

(** While the mutex is locked, no other goroutine gets it. *)
Lemma Lock_held (w : World) :
  evictionMutex (cache w) = true → Lock w = Stuck Deadlock.
Proof. intros Hm. unfold Lock. run. by rewrite Hm. Qed.

(** ** Invariants *)

(** A new cache has the read buffers its mask needs, and an empty hash
    table. *)
Lemma NewCache_buffers_ok parallelism (c : Config K V) :
  1 ≤ parallelism ≤ 2 ^ 29 →
  buffers_ok (NewCache parallelism c : World).
Proof.
  intros [Hlo Hhi]. unfold buffers_ok, NewCache, RoundUpPowerOf2. simpl.
  rewrite length_replicate.
  assert (Hk : 0 ≤ Z.log2_up parallelism ≤ 29).
  { split; [apply Z.log2_up_nonneg |].
    apply Z.log2_up_le_pow2; lia. }
  assert (Hp : 1 ≤ 2 ^ Z.log2_up parallelism ≤ 2 ^ 29).
  { split; [| apply Z.pow_le_mono_r; lia].
    pose proof (Z.pow_pos_nonneg 2 (Z.log2_up parallelism)). lia. }
  unfold u32. rewrite Z.mod_small by lia. lia.
Qed.

Lemma NewCache_entries_alive parallelism (c : Config K V) :
  entries_alive (NewCache parallelism c : World).
Proof. intros k n Hk. simpl in Hk. by rewrite lookup_empty in Hk. Qed.

Lemma fresh_not_in_heap (w : World) n nd :
  heap w !! n = Some nd → n ≠ fresh (dom (heap w)).
Proof.
  intros Hn ->. apply (is_fresh (dom (heap w))), elem_of_dom. eauto.
Qed.

Lemma inserted_entries_alive key value e (w : World) :
  entries_alive w → entries_alive (inserted key value e w).
Proof.
  intros Hw k m. unfold inserted.
  destruct (hashmap (cache w) !! key) as [old|] eqn:Hold; simpl; intros Hk.
  - destruct (Hw _ _ Hold) as (od & Ho & Hokey & _).
    pose proof (fresh_not_in_heap _ _ _ Ho) as Hfresh.
    destruct (decide (key = k)) as [<-|Hne].
    + rewrite lookup_insert_eq in Hk. simplify_eq.
      eexists.
      split; [rewrite lookup_alter_ne by done; apply lookup_insert_eq | done].
    + rewrite lookup_insert_ne in Hk by done.
      destruct (Hw _ _ Hk) as (md & Hm & Hkey & Ha). exists md.
      assert (fresh (dom (heap w)) ≠ m)
        by (apply not_eq_sym; eauto using fresh_not_in_heap).
      assert (old ≠ m) by (intros ->; congruence).
      split; [| done].
      rewrite lookup_alter_ne by done. by rewrite lookup_insert_ne.
  - destruct (decide (key = k)) as [<-|Hne].
    + rewrite lookup_insert_eq in Hk. simplify_eq.
      eexists. split; [apply lookup_insert_eq | done].
    + rewrite lookup_insert_ne in Hk by done.
      destruct (Hw _ _ Hk) as (md & Hm & Hkey & Ha). exists md.
      split; [| done]. rewrite lookup_insert_ne; [done |].
      apply not_eq_sym. eauto using fresh_not_in_heap.
Qed.

Lemma declined_entries_alive key value e (w : World) :
  entries_alive w → entries_alive (declined key value e w).
Proof.
  intros Hw k m Hk. simpl in Hk.
  destruct (Hw _ _ Hk) as (md & Hm & Hkey & Ha). exists md. simpl.
  split; [| done]. rewrite lookup_insert_ne; [done |].
  apply not_eq_sym. eauto using fresh_not_in_heap.
Qed.

Lemma added_entries_alive key value e (w : World) :
  entries_alive w → entries_alive (added key value e w).
Proof.
  intros Hw k m Hk. simpl in Hk. simpl.
  destruct (decide (key = k)) as [<-|Hne].
  - rewrite lookup_insert_eq in Hk. simplify_eq.
    eexists. split; [apply lookup_insert_eq | done].
  - rewrite lookup_insert_ne in Hk by done.
    destruct (Hw _ _ Hk) as (md & Hm & Hkey & Ha). exists md.
    rewrite lookup_insert_ne; [done |].
    intros Heq. by eapply fresh_not_in_heap.
Qed.

(** Every variant of Set keeps the nodes of the hash table alive. *)
Lemma set_entries_alive key value e onlyIfAbsent (w w' : World) r :
  entries_alive w →
  set key value e onlyIfAbsent w = Ok r w' →
  entries_alive w'.
Proof.
  intros Hw Hs.
  destruct (Z_le_gt_dec (cost_of key value w) (limit_of w)) as [Hc|Hc].
  - destruct onlyIfAbsent.
    + rewrite set_if_absent in Hs by done.
      destruct (hashmap (cache w) !! key); simplify_eq;
        eauto using declined_entries_alive, added_entries_alive.
    + rewrite set_unconditional in Hs by done. simplify_eq.
      by apply inserted_entries_alive.
  - rewrite set_refused in Hs by done. by simplify_eq.
Qed.

Lemma Delete_entries_alive key (w w' : World) :
  entries_alive w →
  Delete key w = Ok tt w' →
  entries_alive w'.
Proof.
  intros Hw Hd. destruct (hashmap (cache w) !! key) as [n|] eqn:Hk.
  - rewrite (Delete_present _ _ _ Hk) in Hd. simplify_eq.
    eapply alive_after_bury; eauto; simpl; [apply delete_subseteq |].
    intros k Hk'. apply lookup_delete_Some in Hk' as [Hne Hk'].
    destruct (Hw _ _ Hk) as (nd & Hn & Hkey & _).
    destruct (Hw _ _ Hk') as (md & Hm & Hkey' & _). congruence.
  - rewrite (Delete_absent _ _ Hk) in Hd. by simplify_eq.
Qed.

(** Get changes neither the hash table nor the heap. *)
Lemma Get_entries_alive rnd now key (w w' : World) r :
  entries_alive w →
  Get zeroValue rnd now key w = Ok r w' →
  entries_alive w'.
Proof.
  intros Hw Hg.
  assert (Hsame : hashmap (cache w') = hashmap (cache w) ∧ heap w' = heap w).
  { revert Hg.
    unfold Get, afterGet, hashmap_Get, node_IsAlive, node_IsExpired,
      node_Value, node, getReadBufferIdx, Lock, Unlock, do_policy_Read,
      stats_IncMisses, stats_IncHits, writeBuffer_Insert.
    run. repeat (case_match; simpl in *; simplify_eq);
      intros; simplify_eq; done. }
  destruct Hsame as [Hh Hp]. unfold entries_alive. by rewrite Hh, Hp.
Qed.

(** So do the maintenance loop, for a task that carries nodes, and the
    sweeper, whatever nodes the policies hand back. *)
Lemma process_task_entries_alive t (w : World) :
  is_data t →
  evictionMutex (cache w) = false →
  entries_alive w →
  ∃ w', process_task t w = Ok true w' ∧ entries_alive w'.
Proof.
  intros Ht Hm Hw.
  destruct (steps_process_data t Ht w Hm) as (c & w' & Ep & -> & Hf & _).
  exists w'. split; [done |]. by apply Hf.
Qed.

Lemma cleanup_iter_entries_alive now (w : World) :
  isClosed (cache w) = false →
  evictionMutex (cache w) = false →
  entries_alive w →
  ∃ w', cleanup_iter now w = Ok true w' ∧ entries_alive w'.
Proof.
  intros Hc Hm Hw.
  destruct (cleanup_iter_open now w Hc Hm) as (e & w' & Ec & _ & Hf & _).
  exists w'. split; [done |]. by apply Hf.
Qed.

(** ** Expirations *)

Lemma ttl_seconds d k :
  0 ≤ k < 2 ^ 32 →
  (k - 1) * Second < d ≤ k * Second →
  u32 (Z.quot (i64 (i64 (d + Second) - 1)) Second) = k.
Proof.
  unfold u32, i64, Second. intros Hk Hd.
  rewrite (Z.mod_small (d + 1000000000 + 2 ^ 63)) by lia.
  replace (d + 1000000000 + 2 ^ 63 - 2 ^ 63 - 1) with (d + 999999999) by lia.
  rewrite (Z.mod_small (d + 999999999 + 2 ^ 63)) by lia.
  replace (d + 999999999 + 2 ^ 63 - 2 ^ 63) with (d + 999999999) by lia.
  rewrite Z.quot_div_nonneg by lia.
  assert (Hq : (d + 999999999) `div` 1000000000 = k).
  { symmetry. apply (Z.div_unique _ _ _ (d + 999999999 - k * 1000000000)); lia. }
  rewrite Hq. apply Z.mod_small. lia.
Qed.

(** X1.  [getExpiration] counts a duration in whole seconds, rounded up: a
    duration [d] with (k-1) s < d ≤ k s expires k seconds after the clock
    reading, in [uint32] arithmetic.  So a positive duration of at most a
    second counts for one second. *)
Theorem getExpiration_rounds_up now d k :
  0 ≤ k < 2 ^ 32 →
  (k - 1) * Second < d ≤ k * Second →
  getExpiration now d = u32 (now + k).
Proof.
  intros Hk Hd. unfold getExpiration. simpl. by rewrite (ttl_seconds d k).
Qed.

(** X2.  On a cache built with the fixed TTL [d], (k-1) s < d ≤ k s with
    k > 0, Set and SetIfAbsent are SetWithTTL and SetIfAbsentWithTTL with
    that [d].  With k = 0 (a TTL of zero) they store the expiration 0: the
    entries never expire, though the sweeper runs. *)
Theorem fixed_ttl_is_default parallelism (c : Config K V) d k now key value :
  TTL c = Some d →
  0 ≤ k < 2 ^ 32 →
  (k - 1) * Second < d ≤ k * Second →
  let w : World := NewCache parallelism c in
  ttl (cache w) = k ∧
  sweeper w = Running ∧
  (0 < k →
     Set_ now key value w = SetWithTTL now key value d w ∧
     SetIfAbsent now key value w = SetIfAbsentWithTTL now key value d w) ∧
  (k = 0 →
     Set_ now key value w = set key value 0 false w ∧
     SetIfAbsent now key value w = set key value 0 true w).
Proof.
  intros Hc Hk Hd w.
  assert (Httl : ttl (cache w) = k).
  { unfold w, NewCache. simpl. rewrite Hc. by apply ttl_seconds. }
  split; [done |]. split; [unfold w, NewCache; simpl; by rewrite Hc |].
  rewrite Set_eq, SetIfAbsent_eq.
  unfold SetWithTTL, SetIfAbsentWithTTL, default_expiration. rewrite Httl.
  split; intros Hk0.
  - unfold getExpiration. simpl. rewrite (ttl_seconds d k Hk Hd).
    destruct (Z.eqb_spec k 0); [lia | done].
  - by rewrite Hk0.
Qed.

(** ** The choice of the read buffer *)

(** X3.  A new cache has 4 × 2^⌈log2 parallelism⌉ read buffers, and
    [getReadBufferIdx] maps the random number to its remainder modulo that
    count: every buffer can be chosen and no index is out of range. *)
Theorem getReadBufferIdx_mod parallelism (c : Config K V) rnd :
  1 ≤ parallelism ≤ 2 ^ 29 →
  let w : World := NewCache parallelism c in
  let count := Z.of_nat (length (readBuffers (cache w))) in
  count = 4 * 2 ^ Z.log2_up parallelism ∧
  getReadBufferIdx rnd w = Ok (rnd mod count) w ∧
  0 ≤ rnd mod count < count.
Proof.
  intros [Hlo Hhi] w count.
  assert (Hk : 0 ≤ Z.log2_up parallelism ≤ 29).
  { split; [apply Z.log2_up_nonneg |]. apply Z.log2_up_le_pow2; lia. }
  assert (Hp : 1 ≤ 2 ^ Z.log2_up parallelism ≤ 2 ^ 29).
  { split; [| apply Z.pow_le_mono_r; lia].
    pose proof (Z.pow_pos_nonneg 2 (Z.log2_up parallelism)). lia. }
  assert (Hcount : count = 4 * 2 ^ Z.log2_up parallelism).
  { unfold count, w, NewCache, RoundUpPowerOf2. simpl.
    rewrite length_replicate. lia. }
  assert (Hpow : count = 2 ^ (Z.log2_up parallelism + 2)).
  { rewrite Hcount, Z.pow_add_r by lia. lia. }
  split; [done |]. split; [| apply Z.mod_pos_bound; lia].
  unfold getReadBufferIdx, get. f_equal.
  assert (Hmask : mask (cache w) = Z.ones (Z.log2_up parallelism + 2)).
  { rewrite Z.ones_equiv, <- Hpow, Hcount.
    unfold w, NewCache, RoundUpPowerOf2, u32. simpl.
    rewrite Z.mod_small by lia. lia. }
  rewrite Hmask, Z.land_ones, Hpow by lia. done.
Qed.

(** ** Round trips *)

Lemma inserted_lookup key value e (w : World) :
  entries_alive w →
  hashmap (cache (inserted key value e w)) !! key =
    Some (fresh (dom (heap w))) ∧
  heap (inserted key value e w) !! fresh (dom (heap w)) =
    Some (new_node (nodeManager (cache w)) key value e (cost_of key value w)).
Proof.
  intros Hw. unfold inserted.
  destruct (hashmap (cache w) !! key) as [old|] eqn:Hold; simpl.
  - destruct (Hw _ _ Hold) as (od & Ho & _).
    pose proof (fresh_not_in_heap _ _ _ Ho).
    split; [apply lookup_insert_eq |].
    rewrite lookup_alter_ne by done. apply lookup_insert_eq.
  - split; apply lookup_insert_eq.
Qed.

Lemma inserted_outside key value e (w : World) :
  readBuffers (cache (inserted key value e w)) = readBuffers (cache w) ∧
  mask (cache (inserted key value e w)) = mask (cache w) ∧
  evictionMutex (cache (inserted key value e w)) = evictionMutex (cache w) ∧
  policy (cache (inserted key value e w)) = policy (cache w) ∧
  costFunc (cache (inserted key value e w)) = costFunc (cache w) ∧
  ttl (cache (inserted key value e w)) = ttl (cache w).
Proof. unfold inserted. by destruct (hashmap (cache w) !! key). Qed.

Lemma stored_expiration_live e now' (w : World) :
  e = 0 ∨ now' < e →
  stored_expiration e w = 0 ∨ now' < stored_expiration e w.
Proof.
  unfold stored_expiration.
  destruct (node_WithExpiration (nodeManager (cache w))); tauto.
Qed.

Lemma Get_after_inserted rnd now' key value e (w : World) :
  entries_alive w →
  buffers_ok w →
  evictionMutex (cache w) = false →
  let w1 := inserted key value e w in
  let s := stored_expiration e w in
  Expiration <$> heap w1 !! fresh (dom (heap w)) = Some s ∧
  (s = 0 ∨ now' < s →
     ∃ w2, Get zeroValue rnd now' key w1 = Ok (value, true) w2) ∧
  (s ≠ 0 → s ≤ now' →
     Get zeroValue rnd now' key w1 =
     Ok (zeroValue, false)
        (count_miss (enqueue (NewDeleteTask (fresh (dom (heap w)))) w1))).
Proof.
  intros Hw Hb Hm w1 s.
  destruct (inserted_lookup key value e w Hw) as [Hk Hn].
  fold w1 in Hk, Hn.
  split; [by rewrite Hn |].
  destruct (inserted_outside key value e w) as (Hrb & Hmask & Hmu & _).
  assert (Hb1 : buffers_ok w1)
    by (unfold buffers_ok, w1; by rewrite Hrb, Hmask).
  assert (Hm1 : evictionMutex (cache w1) = false)
    by (unfold w1; by rewrite Hmu).
  split.
  - intros He. destruct (shard_in_range rnd w1 Hb1) as [b Hlook].
    eexists. eapply (Get_hit rnd now' key _ _ b w1 Hk Hn); try done.
    unfold IsExpired. simpl.
    change (if node_WithExpiration (nodeManager (cache w)) then e else 0)
      with s.
    destruct He as [-> | He]; [done |].
    destruct (s =? 0); simpl; lia.
  - intros He0 He. eapply Get_expired; eauto.
    unfold IsExpired. simpl.
    change (if node_WithExpiration (nodeManager (cache w)) then e else 0)
      with s.
    destruct (Z.eqb_spec s 0); simpl; lia.
Qed.


Lemma Size_eq (w : World) :
  Size w = Ok (Z.of_nat (size (hashmap (cache w)))) w.
Proof. done. Qed.

(** X5.  Two Sets of one key keep one entry: the second displaces the node
    of the first, which dies, and enqueues an Update of the old node by the
    new one; Size is what it was after the first Set, and Get returns the
    second value. *)
Theorem Set_twice now1 now2 now3 rnd key v1 v2 (w : World) :
  entries_alive w →
  cost_of key v1 w ≤ limit_of w →
  cost_of key v2 w ≤ limit_of w →
  buffers_ok w →
  evictionMutex (cache w) = false →
  ∃ w1 w2 n1 n2,
    Set_ now1 key v1 w = Ok true w1 ∧
    Set_ now2 key v2 w1 = Ok true w2 ∧
    hashmap (cache w1) !! key = Some n1 ∧
    hashmap (cache w2) !! key = Some n2 ∧
    n1 ≠ n2 ∧
    IsAlive <$> heap w2 !! n1 = Some false ∧
    writeBuffer (cache w2) = writeBuffer (cache w1) ++ [NewUpdateTask n2 n1] ∧
    Size w2 = Ok (Z.of_nat (size (hashmap (cache w1)))) w2 ∧
    (default_expiration now2 w = 0 ∨ now3 < default_expiration now2 w →
       ∃ w3, Get zeroValue rnd now3 key w2 = Ok (v2, true) w3).
Proof.
  intros Hw Hc1 Hc2 Hb Hm.
  set (w1 := inserted key v1 (default_expiration now1 w) w).
  destruct (inserted_lookup key v1 (default_expiration now1 w) w Hw)
    as [Hk1 Hn1]. fold w1 in Hk1, Hn1.
  destruct (inserted_outside key v1 (default_expiration now1 w) w)
    as (Hrb & Hmask & Hmu & Hpol & Hcf & Httl).
  fold w1 in Hrb, Hmask, Hmu, Hpol, Hcf, Httl.
  assert (Hw1 : entries_alive w1) by (by apply inserted_entries_alive).
  assert (Hc21 : cost_of key v2 w1 ≤ limit_of w1)
    by (unfold cost_of, limit_of in *; by rewrite Hcf, Hpol).
  assert (He : default_expiration now2 w1 = default_expiration now2 w)
    by (unfold default_expiration; by rewrite Httl).
  set (n1 := fresh (dom (heap w))) in *.
  set (n2 := fresh (dom (heap w1))).
  assert (Hne : n1 ≠ n2) by (by eapply fresh_not_in_heap).
  exists w1, (inserted key v2 (default_expiration now2 w1) w1), n1, n2.
  rewrite !Set_eq, (set_unconditional _ _ _ w Hc1),
    (set_unconditional _ _ _ w1 Hc21).
  split; [done |]. split; [done |]. split; [done |].
  destruct (inserted_lookup key v2 (default_expiration now2 w1) w1 Hw1)
    as [Hk2 Hn2].
  split; [done |]. split; [done |].
  assert (Hb1 : buffers_ok w1) by (unfold buffers_ok; by rewrite Hrb, Hmask).
  assert (Hm1 : evictionMutex (cache w1) = false) by (by rewrite Hmu).
  split; [| split; [| split]].
  - unfold inserted. rewrite Hk1. simpl.
    rewrite lookup_alter_eq, lookup_insert_ne by done. by rewrite Hn1.
  - unfold inserted. rewrite Hk1. done.
  - rewrite Size_eq. do 2 f_equal. unfold inserted. rewrite Hk1. simpl.
    apply map_size_insert_Some. eauto.
  - rewrite He. intros Hexp.
    apply (Get_after_inserted rnd now3 key v2 _ w1 Hw1 Hb1 Hm1).
    by apply stored_expiration_live.
Qed.

(** X6.  A Delete after a Set removes the entry: the node dies, a Delete
    task follows the task of the Set in the queue, and the next Get and Has
    of the key miss. *)
Theorem Set_Delete_Get now rnd now' key value (w : World) :
  entries_alive w →
  cost_of key value w ≤ limit_of w →
  ∃ w1 w2 n,
    Set_ now key value w = Ok true w1 ∧
    Delete key w1 = Ok tt w2 ∧
    hashmap (cache w1) !! key = Some n ∧
    IsAlive <$> heap w2 !! n = Some false ∧
    writeBuffer (cache w2) = writeBuffer (cache w1) ++ [NewDeleteTask n] ∧
    Get zeroValue rnd now' key w2 = Ok (zeroValue, false) (count_miss w2) ∧
    Has zeroValue rnd now' key w2 = Ok false (count_miss w2).
Proof.
  intros Hw Hc.
  set (w1 := inserted key value (default_expiration now w) w).
  destruct (inserted_lookup key value (default_expiration now w) w Hw)
    as [Hk1 Hn1]. fold w1 in Hk1, Hn1.
  exists w1, (deleted_node key (fresh (dom (heap w))) w1), (fresh (dom (heap w))).
  rewrite Set_eq, (set_unconditional _ _ _ w Hc), (Delete_present _ _ _ Hk1).
  split; [done |]. split; [done |]. split; [done |].
  assert (Hgone : hashmap (cache (deleted_node key (fresh (dom (heap w))) w1))
                  !! key = None) by apply lookup_delete_eq.
  split; [| split; [done | split]].
  - unfold deleted_node. simpl. rewrite lookup_alter_eq.
    by rewrite Hn1.
  - by apply Get_absent.
  - unfold Has, bind. by rewrite Get_absent.
Qed.

(** X7.  Size follows the entries.  For an admitted entry Set and
    SetIfAbsent add one to Size when the key had no node and leave it alone
    when it had one; Delete takes one off when the key had a node and leaves
    it alone otherwise. *)
Theorem Size_follows now key value (w : World) :
  cost_of key value w ≤ limit_of w →
  let before := Z.of_nat (size (hashmap (cache w))) in
  let held := match hashmap (cache w) !! key with Some _ => 1 | None => 0 end in
  (∃ w1, Set_ now key value w = Ok true w1 ∧
         Size w1 = Ok (before + 1 - held) w1) ∧
  (∃ r w1, SetIfAbsent now key value w = Ok r w1 ∧
           Size w1 = Ok (before + 1 - held) w1) ∧
  (∃ w1, Delete key w = Ok tt w1 ∧ Size w1 = Ok (before - held) w1).
Proof.
  intros Hc before held.
  rewrite Set_eq, SetIfAbsent_eq, (set_unconditional _ _ _ w Hc),
    (set_if_absent _ _ _ w Hc).
  unfold before, held, inserted.
  destruct (hashmap (cache w) !! key) as [old|] eqn:Hk.
  - rewrite (Delete_present _ _ _ Hk).
    (split; [| split]); [eexists | do 2 eexists | eexists];
      (split; [reflexivity |]); rewrite Size_eq; do 2 f_equal; simpl.
    + rewrite map_size_insert_Some by eauto. lia.
    + lia.
    + rewrite map_size_delete_Some by eauto.
      assert (size (hashmap (cache w)) ≠ 0%nat); [| lia].
      intros H0%map_size_empty_inv. by rewrite H0 in Hk.
  - rewrite (Delete_absent _ _ Hk).
    (split; [| split]); [eexists | do 2 eexists | eexists];
      (split; [reflexivity |]); rewrite Size_eq; do 2 f_equal; simpl.
    + rewrite map_size_insert_None by done. lia.
    + rewrite map_size_insert_None by done. lia.
    + lia.
Qed.

(** ** Removal of a given node *)

Lemma deleteNode_stored n nd (w : World) :
  heap w !! n = Some nd →
  hashmap (cache w) !! Key nd = Some n →
  deleteNode n w = Ok tt (unlinked (Key nd) n w).
Proof.
  intros Hn Hk.
  unfold deleteNode, hashmap_DeleteNode, afterDelete, Die, node, hashmap_Get,
    writeBuffer_Insert.
  run. rewrite Hn. simpl. rewrite Hk. simpl.
  rewrite bool_decide_eq_true_2 by done. reflexivity.
Qed.

Lemma deleteNode_other n (w : World) :
  (∀ nd, heap w !! n = Some nd → hashmap (cache w) !! Key nd ≠ Some n) →
  deleteNode n w = Ok tt (record [EvMapDeleteNode n] w).
Proof.
  intros Hno.
  unfold deleteNode, hashmap_DeleteNode, afterDelete, Die, node, hashmap_Get,
    writeBuffer_Insert.
  run. destruct (heap w !! n) as [nd|] eqn:Hn; simpl; [| done].
  specialize (Hno nd eq_refl).
  destruct (hashmap (cache w) !! Key nd) as [p|]; simpl; [| done].
  rewrite bool_decide_eq_false_2; [done |]. congruence.
Qed.

(** X8.  [deleteNode] removes a node by identity.  When the node is the one
    the hash table holds for its key, the entry is removed, the node dies
    and a Delete task is enqueued.  When the table holds another node for
    the key, or none, nothing is removed and nothing is enqueued; so the
    removal of a node that a Set has displaced leaves the new node in
    place. *)
Theorem deleteNode_by_identity key value e n nd (w : World) :
  heap w !! n = Some nd →
  (hashmap (cache w) !! Key nd = Some n →
     deleteNode n w = Ok tt (unlinked (Key nd) n w) ∧
     hashmap (cache (unlinked (Key nd) n w)) !! Key nd = None ∧
     heap (unlinked (Key nd) n w) !! n = Some (kill nd) ∧
     writeBuffer (cache (unlinked (Key nd) n w)) =
       writeBuffer (cache w) ++ [NewDeleteTask n]) ∧
  (hashmap (cache w) !! Key nd ≠ Some n →
     deleteNode n w = Ok tt (record [EvMapDeleteNode n] w)) ∧
  (entries_alive w → hashmap (cache w) !! key = Some n →
     let w1 := inserted key value e w in
     deleteNode n w1 = Ok tt (record [EvMapDeleteNode n] w1) ∧
     hashmap (cache w1) !! key = Some (fresh (dom (heap w)))).
Proof.
  intros Hn. split; [| split].
  - intros Hk. split; [by apply deleteNode_stored |].
    unfold unlinked. simpl. split; [apply lookup_delete_eq |].
    split; [| done]. by rewrite lookup_alter_eq, Hn.
  - intros Hk. apply deleteNode_other. intros nd' Hn'. congruence.
  - intros Hw Hk w1.
    destruct (inserted_lookup key value e w Hw) as [Hk1 Hn1].
    split; [| done]. apply deleteNode_other. intros nd1 Hnd1.
    destruct (Hw _ _ Hk) as (od & Ho & Hkey & _).
    assert (nd = od) by congruence. subst od.
    pose proof (fresh_not_in_heap _ _ _ Hn) as Hfresh.
    assert (Hnd1' : nd1 = kill nd).
    { revert Hnd1. unfold w1, inserted. rewrite Hk. simpl.
      rewrite lookup_alter_eq, lookup_insert_ne by done.
      rewrite Hn. simpl. congruence. }
    subst nd1. simpl. rewrite Hkey. fold w1 in Hk1. rewrite Hk1. congruence.
Qed.

(** ** Iteration *)

Lemma Range_walk {U} order now (f : K → V → U → bool * U) : ∀ u (w : World),
  Range order now f u w = Ok (walk f (shown now w order) u) w.
Proof.
  induction order as [|n order IH]; intros u w; [done |].
  unfold Range in *. simpl. unfold bind at 1. unfold node, bind, get, ret.
  destruct (heap w !! n) as [nd|]; simpl; [| apply IH].
  destruct (negb (IsAlive nd) || IsExpired (now n) nd); simpl; [apply IH |].
  destruct (f (Key nd) (Value nd) u) as [[] u']; simpl; [apply IH | done].
Qed.

Lemma shown_fresh_key now order (w : World) n nd :
  entries_alive w →
  (∀ m, m ∈ n :: order → ∃ k, hashmap (cache w) !! k = Some m) →
  n ∉ order →
  heap w !! n = Some nd →
  Key nd ∉ (shown now w order).*1.
Proof.
  intros Hw Hst Hnot Hn Hin.
  apply list_elem_of_fmap in Hin as ([k v] & Hk & Hin). simpl in Hk.
  apply list_elem_of_omap in Hin as (m & Hm & Hshow).
  destruct (heap w !! m) as [md|] eqn:Hmd; [| done].
  destruct (negb (IsAlive md) || IsExpired (now m) md); simplify_eq.
  destruct (Hst n) as [k1 Hk1]; [by left |].
  destruct (Hst m) as [k2 Hk2]; [by right |].
  destruct (Hw _ _ Hk1) as (nd' & Hn' & Hkey1 & _).
  destruct (Hw _ _ Hk2) as (md' & Hm' & Hkey2 & _).
  simplify_eq. congruence.
Qed.

(** X9.  Range changes nothing in the cache, and shows the visitor the key
    and the value of the nodes that are alive and not expired when they
    are visited, in the order of the hash table, until the visitor returns
    false.  When the hash table is enumerated once, the entries shown are
    those of the hash table that have not expired, each key once. *)
Theorem Range_shows {U} order now (f : K → V → U → bool * U) u (w : World) :
  Range order now f u w = Ok (walk f (shown now w order) u) w ∧
  Range order now (λ k v acc, (true, acc ++ [(k, v)])) [] w =
    Ok (shown now w order) w ∧
  (entries_alive w → enumerates order w →
     NoDup (shown now w order).*1 ∧
     ∀ k v, (k, v) ∈ shown now w order ↔
            ∃ n nd, hashmap (cache w) !! k = Some n ∧
                    heap w !! n = Some nd ∧ Value nd = v ∧
                    IsExpired (now n) nd = false).
Proof.
  split; [apply Range_walk |]. split.
  - rewrite Range_walk. f_equal.
    assert (Hacc : ∀ l acc,
      walk (λ (k : K) (v : V) acc, (true, acc ++ [(k, v)])) l acc = acc ++ l).
    { induction l as [|[k v] l IH]; intros acc; simpl.
      - by rewrite app_nil_r.
      - rewrite IH, <- app_assoc. done. }
    apply Hacc.
  - intros Hw [Hnd Hen]. split.
    + assert (Hst : ∀ m, m ∈ order → ∃ k, hashmap (cache w) !! k = Some m)
        by (intros m Hm; by apply Hen).
      clear Hen. induction order as [|n order IH]; [constructor |].
      apply NoDup_cons in Hnd as [Hnot Hnd]. simpl.
      assert (Hrest : NoDup (shown now w order).*1).
      { apply IH; [done |]. intros m Hm. apply Hst. by right. }
      destruct (heap w !! n) as [nd|] eqn:Hn; [| done].
      destruct (negb (IsAlive nd) || IsExpired (now n) nd); [done |].
      simpl. apply NoDup_cons. split; [| done].
      by eapply shown_fresh_key.
    + intros k v. unfold shown. rewrite list_elem_of_omap. split.
      * intros (n & Hin & Hshow). apply Hen in Hin as [k' Hk'].
        destruct (Hw _ _ Hk') as (nd & Hn & Hkey & Ha).
        rewrite Hn, Ha in Hshow. simpl in Hshow.
        destruct (IsExpired (now n) nd) eqn:He; simplify_eq.
        by exists n, nd.
      * intros (n & nd & Hk & Hn & Hv & He). exists n.
        split; [apply Hen; eauto |].
        destruct (Hw _ _ Hk) as (nd' & Hn' & Hkey & Ha).
        assert (nd' = nd) by congruence. subst nd'.
        rewrite Hn, Ha, He. simpl. congruence.
Qed.

Lemma unlinked_entries_alive n nd (w : World) :
  entries_alive w →
  heap w !! n = Some nd →
  hashmap (cache w) !! Key nd = Some n →
  entries_alive (unlinked (Key nd) n w).
Proof.
  intros Hw Hn Hk. eapply alive_after_bury; eauto; simpl;
    [apply delete_subseteq |].
  intros k Hk'. apply lookup_delete_Some in Hk' as [Hne Hk'].
  destruct (Hw _ _ Hk') as (md & Hm & Hkey & _). congruence.
Qed.

Lemma DeleteByFunc_cons n rest now f (w : World) :
  DeleteByFunc (n :: rest) now f w =
  if chosen now f w n then
    match deleteNode n w with
    | Ok _ w1 => DeleteByFunc rest now f w1
    | Stuck e => Stuck e
    end
  else DeleteByFunc rest now f w.
Proof.
  unfold DeleteByFunc, chosen. simpl. unfold bind at 1.
  unfold node, bind, get, ret.
  destruct (heap w !! n) as [nd|]; simpl; [| done].
  destruct (IsAlive nd); simpl; [| done].
  destruct (IsExpired (now n) nd); simpl; [done |].
  destruct (f (Key nd) (Value nd)); simpl; [| done].
  by destruct (deleteNode n w).
Qed.

Lemma chosen_unlinked now f key n m (w : World) :
  m ≠ n → chosen now f (unlinked key n w) m = chosen now f w m.
Proof.
  intros Hne. unfold chosen, unlinked. simpl.
  by rewrite lookup_alter_ne.
Qed.

Lemma filter_agree {A} (P1 P2 : A → Prop)
    `{!∀ x, Decision (P1 x), !∀ x, Decision (P2 x)} (l : list A) :
  (∀ x, x ∈ l → P1 x ↔ P2 x) → filter P1 l = filter P2 l.
Proof.
  induction l as [|a l IH]; intros Hiff; [done |].
  rewrite !filter_cons.
  rewrite IH by (intros x Hx; apply Hiff; by right).
  apply decide_ext, Hiff. by left.
Qed.

Lemma DeleteByFunc_list now f l : ∀ w : World,
  NoDup l →
  entries_alive w →
  (∀ n, n ∈ l → ∃ k, hashmap (cache w) !! k = Some n) →
  ∃ w', DeleteByFunc l now f w = Ok tt w' ∧
        entries_alive w' ∧
        (∀ k, hashmap (cache w') !! k =
              match hashmap (cache w) !! k with
              | Some n =>
                  if bool_decide (n ∈ l) && chosen now f w n then None
                  else Some n
              | None => None
              end) ∧
        (∀ n, heap w' !! n =
              if bool_decide (n ∈ l) && chosen now f w n
              then kill <$> heap w !! n else heap w !! n) ∧
        writeBuffer (cache w') =
          writeBuffer (cache w) ++
          (NewDeleteTask <$> filter (λ n, chosen now f w n = true) l).
Proof.
  induction l as [|n l IH]; intros w Hnd Hw Hst.
  - exists w. split; [done |]. split; [done |]. split; [| split].
    + intros k. by destruct (hashmap (cache w) !! k).
    + done.
    + simpl. by rewrite app_nil_r.
  - apply NoDup_cons in Hnd as [Hnot Hnd].
    destruct (Hst n) as [kn Hkn]; [by left |].
    destruct (Hw _ _ Hkn) as (nd & Hn & Hkey & Ha). subst kn.
    assert (Hrest : ∀ m, m ∈ l → m ≠ n) by (intros m Hm ->; done).
    rewrite DeleteByFunc_cons.
    destruct (chosen now f w n) eqn:Hch.
    + rewrite (deleteNode_stored _ _ _ Hn Hkn).
      set (w1 := unlinked (Key nd) n w).
      destruct (IH w1) as (w' & Ed & Hw' & Hh' & Hp' & Hq').
      { done. }
      { by apply unlinked_entries_alive. }
      { intros m Hm. destruct (Hst m) as [k Hk]; [by right |].
        exists k. unfold w1, unlinked. simpl.
        rewrite lookup_delete_ne; [done |].
        intros <-. apply (Hrest m Hm). congruence. }
      exists w'. split; [done |]. split; [done |]. split; [| split].
      * intros k. rewrite Hh'. unfold w1 at 1, unlinked. simpl.
        destruct (decide (k = Key nd)) as [-> | Hne].
        -- rewrite lookup_delete_eq, Hkn, Hch.
           by rewrite bool_decide_eq_true_2 by (by left).
        -- rewrite lookup_delete_ne by done.
           destruct (hashmap (cache w) !! k) as [m|] eqn:Hk; [| done].
           assert (Hmn : m ≠ n).
           { intros ->. destruct (Hw _ _ Hk) as (nd' & Hn' & Hkey' & _).
             congruence. }
           unfold w1. rewrite chosen_unlinked by done.
           erewrite bool_decide_ext; [done |].
           rewrite elem_of_cons. intuition congruence.
      * intros m. rewrite Hp'. unfold w1 at 2 3, unlinked. simpl.
        destruct (decide (m = n)) as [-> | Hmn].
        -- rewrite (bool_decide_eq_false_2 (n ∈ l)) by done. simpl.
           rewrite bool_decide_eq_true_2 by (by left). rewrite Hch. simpl.
           by rewrite lookup_alter_eq.
        -- unfold w1. rewrite chosen_unlinked by done.
           rewrite lookup_alter_ne by done.
           erewrite bool_decide_ext; [done |].
           rewrite elem_of_cons. intuition congruence.
      * rewrite Hq'. unfold w1 at 1, unlinked. simpl.
        rewrite filter_cons_True by done. rewrite <- app_assoc. simpl.
        do 3 f_equal. apply filter_agree. intros m Hm.
        unfold w1. by rewrite chosen_unlinked by auto.
    + destruct (IH w) as (w' & Ed & Hw' & Hh' & Hp' & Hq'); [done | done | |].
      { intros m Hm. apply Hst. by right. }
      exists w'. split; [done |]. split; [done |]. split; [| split].
      * intros k. rewrite Hh'.
        destruct (hashmap (cache w) !! k) as [m|] eqn:Hk; [| done].
        destruct (decide (m = n)) as [-> | Hmn].
        -- rewrite Hch, !andb_false_r. done.
        -- erewrite bool_decide_ext; [done |].
           rewrite elem_of_cons. intuition congruence.
      * intros m. rewrite Hp'.
        destruct (decide (m = n)) as [-> | Hmn].
        -- rewrite Hch, !andb_false_r. done.
        -- erewrite bool_decide_ext; [done |].
           rewrite elem_of_cons. intuition congruence.
      * rewrite Hq'. rewrite filter_cons_False; [done |]. by rewrite Hch.
Qed.

(** X10.  When the hash table is enumerated once, DeleteByFunc removes
    exactly the entries that have not expired and of which the function
    holds: their nodes die and a Delete task is enqueued for each, in the
    order of the visit; every other entry, and every other node, is left as
    it was. *)
Theorem DeleteByFunc_removes order now f (w : World) :
  entries_alive w →
  enumerates order w →
  ∃ w', DeleteByFunc order now f w = Ok tt w' ∧
        entries_alive w' ∧
        (∀ k, hashmap (cache w') !! k =
              match hashmap (cache w) !! k with
              | Some n => if chosen now f w n then None else Some n
              | None => None
              end) ∧
        (∀ k n, hashmap (cache w) !! k = Some n →
                heap w' !! n =
                if chosen now f w n then kill <$> heap w !! n
                else heap w !! n) ∧
        (∀ n, n ∉ order → heap w' !! n = heap w !! n) ∧
        writeBuffer (cache w') =
          writeBuffer (cache w) ++
          (NewDeleteTask <$> filter (λ n, chosen now f w n = true) order).
Proof.
  intros Hw [Hnd Hen].
  destruct (DeleteByFunc_list now f order w Hnd Hw)
    as (w' & Ed & Hw' & Hh' & Hp' & Hq').
  { intros n Hn. by apply Hen. }
  exists w'. split; [done |]. split; [done |].
  split; [| split; [| split; [| done]]].
  - intros k. rewrite Hh'.
    destruct (hashmap (cache w) !! k) as [n|] eqn:Hk; [| done].
    rewrite bool_decide_eq_true_2; [done |]. apply Hen. eauto.
  - intros k n Hk. rewrite Hp'.
    rewrite bool_decide_eq_true_2; [done |]. apply Hen. eauto.
  - intros n Hn. rewrite Hp'. by rewrite bool_decide_eq_false_2.
Qed.

(** ** What a computation keeps *)

Lemma bind_Ok_inv {A B} (m : M A) (k : A → M B) (w w' : World) b :
  bind m k w = Ok b w' →
  ∃ a w1, m w = Ok a w1 ∧ k a w1 = Ok b w'.
Proof. unfold bind. destruct (m w) as [a w1|]; [eauto | done]. Qed.

Lemma keeps_ret {T A} (view : World → T) (a : A) : keeps view (ret a).
Proof. intros w b w' Hr. unfold ret in Hr. by simplify_eq. Qed.

Lemma keeps_raise {T A} (view : World → T) f : keeps view (raise f : M A).
Proof. by intros w b w' Hr. Qed.

Lemma keeps_get {T A} (view : World → T) (f : World → A) :
  keeps view (get f).
Proof. intros w b w' Hr. unfold get in Hr. by simplify_eq. Qed.

Lemma keeps_modify {T} (view : World → T) (f : World → World) :
  (∀ w, view (f w) = view w) → keeps view (modify f).
Proof. intros Hf w b w' Hr. unfold modify in Hr. by simplify_eq. Qed.

Lemma keeps_bind {T A B} (view : World → T) (m : M A) (k : A → M B) :
  keeps view m → (∀ a, keeps view (k a)) → keeps view (bind m k).
Proof.
  intros Hm Hk w b w' Hr. apply bind_Ok_inv in Hr as (a & w1 & E1 & E2).
  rewrite (Hk _ _ _ _ E2). eauto.
Qed.

Lemma keeps_for_each {T A} (view : World → T) (l : list A) (f : A → M unit) :
  (∀ x, keeps view (f x)) → keeps view (for_each l f).
Proof.
  intros Hf. induction l as [|x l IH]; simpl.
  - apply keeps_ret.
  - apply keeps_bind; auto.
Qed.

Lemma keeps_hashmap_Range {T U} (view : World → T) order
    (f : ref → U → M (bool * U)) :
  (∀ n u, keeps view (f n u)) →
  ∀ u, keeps view (hashmap_Range order f u).
Proof.
  intros Hf. induction order as [|n order IH]; intros u; simpl.
  - apply keeps_ret.
  - apply keeps_bind; [apply Hf |]. intros [[] u']; simpl;
      [apply IH | apply keeps_ret].
Qed.

(** The rules, applied as far as they go. *)
Ltac keeps_step :=
  first
    [ apply keeps_ret
    | apply keeps_raise
    | apply keeps_get
    | apply keeps_for_each; intros
    | apply keeps_hashmap_Range; intros
    | apply keeps_bind; [| intros]
    | match goal with
      | |- ?r (match ?x with _ => _ end) => destruct x
      end ].

(** ** The configuration *)

Ltac keeps_layout :=
  repeat first
    [ keeps_step
    | apply keeps_modify; intros; reflexivity
    | apply keeps_modify; intros; unfold layout; simpl;
      rewrite ?length_fmap, ?length_alter, ?length_insert; reflexivity ].

Ltac unfold_ops :=
  unfold Has, Get, Set_, SetWithTTL, SetIfAbsent, SetIfAbsentWithTTL, set,
    Delete, deleteNode, afterDelete, DeleteByFunc, Range, Size, Clear, Close,
    clear, recv_doneClear, process_task, cleanup_iter, defaultExpiration,
    send_doneClear, unixtime_Stop, nodeManager_Create,
    stats_IncHits, stats_IncMisses, node_IsExpired, node_Value,
    Lock, Unlock, hashmap_Set, hashmap_SetIfAbsent, hashmap_Delete,
    hashmap_DeleteNode, hashmap_Clear, Die, writeBuffer_Insert,
    writeBuffer_Clear, expire_task, do_expire_Delete, do_expire_Add,
    do_expire_RemoveExpired, do_expire_Clear, do_policy_Write,
    do_policy_Read, do_policy_Delete, do_policy_Clear, node_IsAlive, node,
    hashmap_Get, buffer_Clear, isClosed_Set, emit.

Lemma afterGet_layout rnd n : keeps layout (afterGet rnd n).
Proof.
  intros w a w'.
  unfold afterGet, getReadBufferIdx, Lock, Unlock, do_policy_Read. run.
  repeat (case_match; simpl in *; simplify_eq); intros; simplify_eq;
    unfold layout; simpl; by rewrite ?length_alter, ?length_insert.
Qed.

Lemma process_loop_layout fuel : keeps layout (process_loop fuel).
Proof.
  induction fuel as [|fuel IH]; simpl; [apply keeps_raise |].
  repeat first [apply IH | progress unfold_ops | keeps_layout].
Qed.

Lemma process_layout : keeps layout process.
Proof.
  unfold process. apply keeps_bind; [apply keeps_get |].
  intros. apply process_loop_layout.
Qed.

(** X11.  No operation changes what was fixed when the cache was built:
    the capacity, the mask, the default TTL, the cost function, the number
    of read buffers and the configuration of the node manager are the same
    after every call of the facade and every turn of the two workers.  So
    the index of the read buffer is in range in every world that comes
    from a new cache. *)
Theorem layout_is_fixed :
  (∀ rnd now key, keeps layout (Get zeroValue rnd now key)) ∧
  (∀ rnd now key, keeps layout (Has zeroValue rnd now key)) ∧
  (∀ now key value, keeps layout (Set_ now key value)) ∧
  (∀ now key value d, keeps layout (SetWithTTL now key value d)) ∧
  (∀ now key value, keeps layout (SetIfAbsent now key value)) ∧
  (∀ now key value d, keeps layout (SetIfAbsentWithTTL now key value d)) ∧
  (∀ key, keeps layout (Delete key)) ∧
  (∀ order now f, keeps layout (DeleteByFunc order now f)) ∧
  (∀ U order now f (u : U), keeps layout (Range order now f u)) ∧
  keeps layout Size ∧
  keeps layout Clear ∧
  keeps layout Close ∧
  keeps layout process ∧
  (∀ now, keeps layout (cleanup_iter now)) ∧
  (∀ w w' : World, layout w' = layout w → buffers_ok w → buffers_ok w').
Proof.
  assert (Hb : ∀ w w' : World,
            layout w' = layout w → buffers_ok w → buffers_ok w').
  { intros w w'. unfold layout, buffers_ok. intros [= ? ? ? ? ? Hl]. lia. }
  do 14 (split;
    [ intros;
      repeat first
        [ apply afterGet_layout | apply process_layout
        | keeps_step
        | apply keeps_modify; intros; reflexivity
        | apply keeps_modify; intros; unfold layout; simpl;
          rewrite ?length_fmap; reflexivity
        | progress unfold_ops ] |]).
  exact Hb.
Qed.

(** ** The counter of the maintenance loop *)

Lemma write_sizes_snoc tr (e : Event K) :
  write_sizes (tr ++ [e]) =
  write_sizes tr ++
  match e with EvPolicyWrite b => [length b] | _ => [] end.
Proof. unfold write_sizes. rewrite omap_app. by destruct e. Qed.

Ltac keeps_loop :=
  repeat first
    [ keeps_step
    | apply keeps_modify; intros; reflexivity
    | apply keeps_modify; intros; unfold loopview; simpl;
      rewrite write_sizes_snoc, app_nil_r; reflexivity
    | progress unfold_ops ].

Lemma evict_loopview n :
  keeps loopview (bind (hashmap_DeleteNode n) (λ _, Die n)).
Proof. keeps_loop. Qed.

Lemma policy_Write_loopview scratch batch (w w' : World) d :
  do_policy_Write scratch batch w = Ok d w' →
  loopview w' = (i w, buffer w, write_sizes (trace w) ++ [length batch]).
Proof.
  unfold do_policy_Write. run. intros [= <- <-].
  unfold loopview. simpl. by rewrite write_sizes_snoc.
Qed.

Ltac inv_bind H N :=
  apply bind_Ok_inv in H as (? & ? & N & H);
  try match type of N with
      | modify _ _ = _ => unfold modify in N; injection N as <- <-
      | get _ _ = _ => unfold get in N; injection N as <- <-
      | ret _ _ = _ => unfold ret in N; injection N as <- <-
      end.

Lemma loopview_steps :
  keeps loopview Lock ∧ keeps loopview Unlock ∧
  (∀ l, keeps loopview (for_each l expire_task)) ∧
  (∀ l, keeps loopview (for_each l do_expire_Delete)) ∧
  (∀ l, keeps loopview
          (for_each l (λ n, bind (hashmap_DeleteNode n) (λ _, Die n)))).
Proof. repeat split; intros; keeps_loop. Qed.

(** A task that carries nodes joins the batch and adds one to the counter;
    when the counter reaches the capacity it loses the capacity, and the
    batch is written and emptied. *)
Lemma process_task_data_view t (w w' : World) c :
  is_data t →
  process_task t w = Ok c w' →
  loopview w' =
  if i w + 1 >=? bufferCapacity
  then (i w + 1 - bufferCapacity, [],
        write_sizes (trace w) ++ [S (length (buffer w))])
  else (i w + 1, buffer w ++ [t], write_sizes (trace w)).
Proof.
  destruct loopview_steps as (KL & KU & Kx & Kd & Ke).
  intros [Hclear Hclose] Hp. unfold process_task in Hp.
  rewrite Hclear, Hclose in Hp. simpl in Hp.
  inv_bind Hp X1. inv_bind Hp X2. inv_bind Hp X3. simpl in Hp.
  inv_bind Hp X4. unfold ret in Hp. simplify_eq.
  destruct (i w + 1 >=? bufferCapacity);
    [| by unfold ret in X4; simplify_eq].
  inv_bind X4 Y1. inv_bind X4 Y2. apply KL in Y2. inv_bind X4 Y3.
  inv_bind X4 Y4. apply Kx in Y4. inv_bind X4 Y5.
  inv_bind X4 Y6. apply policy_Write_loopview in Y6.
  inv_bind X4 Y7. apply Kd in Y7. inv_bind X4 Y8. apply KU in Y8.
  inv_bind X4 Y9. apply Ke in Y9. inv_bind X4 Y10.
  unfold buffer_Clear, bind, modify, emit in Y10. simpl in Y10.
  injection Y10 as <- <-.
  unfold modify in X4. simplify_eq.
  unfold loopview in *. simpl in *.
  rewrite write_sizes_snoc, app_nil_r. simplify_eq.
  assert (Hlen : length (buffer w ++ [t]) = S (length (buffer w)))
    by (rewrite length_app; simpl; lia).
  unfold clearBuffer. f_equal; [f_equal |]; congruence.
Qed.

(** A Clear or a Close empties the batch and leaves the counter alone. *)
Lemma process_task_control_view t (w w' : World) c :
  IsClear t || IsClose t = true →
  process_task t w = Ok c w' →
  loopview w' = (i w, [], write_sizes (trace w)).
Proof.
  intros Ht Hp. unfold process_task in Hp. rewrite Ht in Hp.
  inv_bind Hp X1.
  unfold buffer_Clear, bind, modify, emit in X1. simpl in X1.
  injection X1 as <- <-.
  match type of Hp with
  | ?m _ = _ => assert (Hk : keeps loopview m) by keeps_loop
  end.
  apply Hk in Hp. rewrite Hp. unfold loopview. simpl.
  by rewrite write_sizes_snoc, app_nil_r.
Qed.

Lemma loopview_bounded (w w' : World) :
  loopview w' = loopview w → loop_bounded w → loop_bounded w'.
Proof. unfold loopview, loop_bounded. intros [= -> -> ->]. done. Qed.

Lemma loopview_exact (w w' : World) :
  loopview w' = loopview w → loop_exact w → loop_exact w'.
Proof. unfold loopview, loop_exact. intros [= -> -> ->]. done. Qed.

Lemma keeps_bounded {A} (m : M A) :
  keeps loopview m → invariant loop_bounded m.
Proof.
  intros Hk w a w' Hb Hm. apply (loopview_bounded w); [by eapply Hk | done].
Qed.

Lemma process_task_bounded t : invariant loop_bounded (process_task t).
Proof.
  intros w c w' (Hi & Hlen & Hall) Hp.
  destruct (IsClear t || IsClose t) eqn:Ht.
  - apply (process_task_control_view _ _ _ _ Ht) in Hp.
    unfold loopview in Hp. injection Hp as Hi' Hb' Ht'.
    unfold loop_bounded. rewrite Hi', Hb', Ht'. simpl. repeat split; lia || done.
  - apply orb_false_elim in Ht.
    apply (process_task_data_view _ _ _ _ Ht) in Hp.
    unfold loopview, bufferCapacity in *.
    destruct (Z.geb_spec (i w + 1) 64); injection Hp as Hi' Hb' Ht';
      unfold loop_bounded, bufferCapacity; rewrite Hi', Hb', Ht'.
    + simpl. repeat split; try lia.
      apply Forall_app. split; [done |]. apply Forall_singleton. lia.
    + rewrite length_app. simpl. repeat split; lia || done.
Qed.

Lemma process_task_exact t :
  is_data t → invariant loop_exact (process_task t).
Proof.
  intros Ht w c w' (Hi & Hlt & Hall) Hp.
  apply (process_task_data_view _ _ _ _ Ht) in Hp.
  unfold loopview, bufferCapacity in *.
  destruct (Z.geb_spec (i w + 1) 64); injection Hp as Hi' Hb' Ht';
    unfold loop_exact, bufferCapacity; rewrite Hi', Hb', Ht'.
  - simpl. repeat split; try lia.
    apply Forall_app. split; [done |]. repeat constructor. lia.
  - rewrite length_app. simpl. repeat split; lia || done.
Qed.

Lemma process_loop_bounded fuel : invariant loop_bounded (process_loop fuel).
Proof.
  induction fuel as [|fuel IH]; intros w a w' Hb Hp; [done |].
  rewrite process_loop_S in Hp.
  destruct (maintenance w); try by simplify_eq.
  destruct (writeBuffer (cache w)) as [|t q]; [by simplify_eq |].
  destruct (process_task t _) as [c w1|] eqn:Et; [| done].
  apply process_task_bounded in Et; [| done].
  destruct c; [by eapply IH | by simplify_eq].
Qed.

Lemma process_task_queue t :
  is_data t → keeps (λ w, writeBuffer (cache w)) (process_task t).
Proof.
  intros [Hclear Hclose]. unfold process_task. rewrite Hclear, Hclose. simpl.
  repeat first
    [ keeps_step | apply keeps_modify; intros; reflexivity
    | progress unfold_ops ].
Qed.

Lemma process_loop_exact fuel : ∀ (w w' : World) a,
  Forall is_data (writeBuffer (cache w)) →
  loop_exact w →
  process_loop fuel w = Ok a w' →
  loop_exact w'.
Proof.
  induction fuel as [|fuel IH]; intros w w' a Hd Hb Hp; [done |].
  rewrite process_loop_S in Hp.
  destruct (maintenance w); try by simplify_eq.
  destruct (writeBuffer (cache w)) as [|t q] eqn:Hq; [by simplify_eq |].
  apply Forall_cons in Hd as [Ht Hd].
  destruct (process_task t _) as [c w1|] eqn:Et; [| done].
  pose proof (process_task_queue t Ht _ _ _ Et) as Hq1. simpl in Hq1.
  apply (process_task_exact t Ht) in Et; [| done].
  destruct c; [| by simplify_eq].
  eapply IH; [| done | done]. by rewrite Hq1.
Qed.

Lemma afterGet_loopview rnd n : keeps loopview (afterGet rnd n).
Proof.
  intros w a w'.
  unfold afterGet, getReadBufferIdx, Lock, Unlock, do_policy_Read. run.
  repeat (case_match; simpl in *; simplify_eq); intros; simplify_eq; try done.
  unfold loopview. simpl. by rewrite !write_sizes_snoc, !app_nil_r.
Qed.

Lemma process_bounded : invariant loop_bounded process.
Proof.
  intros w a w' Hb Hp. unfold process, bind, get in Hp.
  by eapply process_loop_bounded.
Qed.

Lemma clear_bounded t : invariant loop_bounded (clear t).
Proof.
  intros w a w' Hb Hc. rewrite clear_eq in Hc.
  destruct (process _) as [[] w1|] eqn:Ep; [| done].
  apply process_bounded in Ep.
  - destruct (receiving w1); by simplify_eq.
  - revert Hb. apply loopview_bounded. unfold loopview, clearing. simpl.
    by rewrite write_sizes_snoc, app_nil_r.
Qed.

Lemma Close_bounded : invariant loop_bounded Close.
Proof.
  intros w a w' Hb Hc. destruct (closeOnce (cache w)) eqn:Ho.
  - rewrite Close_again in Hc by done. by simplify_eq.
  - rewrite Close_eq in Hc by done.
    destruct (clear _ w) as [[] w1|] eqn:Ec; [| done].
    apply clear_bounded in Ec; [| done]. simplify_eq.
    revert Ec. apply loopview_bounded. unfold closed_after.
    by destruct (withExpiration (cache w1)).
Qed.

(** X12.  The batch of the maintenance loop never outgrows its capacity: in
    every world that comes from a new cache the counter of the loop is
    within 0..63 and bounds the length of the pending batch, and every batch
    that was given to [policy.Write] had at most 64 tasks.  The loop, Clear
    and Close keep this; the other operations touch neither the counter nor
    the batch and write nothing. *)
Theorem process_batch_bounded :
  (∀ parallelism (c : Config K V),
     loop_bounded (NewCache parallelism c : World)) ∧
  (∀ t, invariant loop_bounded (process_task t)) ∧
  invariant loop_bounded process ∧
  invariant loop_bounded Clear ∧
  invariant loop_bounded Close ∧
  (∀ now, keeps loopview (cleanup_iter now)) ∧
  (∀ rnd now key, keeps loopview (Get zeroValue rnd now key)) ∧
  (∀ now key value, keeps loopview (Set_ now key value)) ∧
  (∀ now key value d, keeps loopview (SetWithTTL now key value d)) ∧
  (∀ now key value, keeps loopview (SetIfAbsent now key value)) ∧
  (∀ now key value d, keeps loopview (SetIfAbsentWithTTL now key value d)) ∧
  (∀ key, keeps loopview (Delete key)) ∧
  (∀ order now f, keeps loopview (DeleteByFunc order now f)) ∧
  (∀ w w' : World, loopview w' = loopview w → loop_bounded w → loop_bounded w').
Proof.
  split.
  { intros. unfold loop_bounded, bufferCapacity. simpl.
    repeat split; try lia. constructor. }
  split; [apply process_task_bounded |].
  split; [apply process_bounded |].
  split; [apply clear_bounded |].
  split; [apply Close_bounded |].
  do 8 (split;
    [ intros;
      repeat first
        [ apply afterGet_loopview
        | keeps_step
        | apply keeps_modify; intros; reflexivity
        | apply keeps_modify; intros; unfold loopview; simpl;
          rewrite write_sizes_snoc, app_nil_r; reflexivity
        | progress unfold_ops ] |]).
  apply loopview_bounded.
Qed.

Lemma process_loop_counts q : ∀ fuel (w : World),
  Forall is_data q →
  writeBuffer (cache w) = q →
  maintenance w = Running →
  evictionMutex (cache w) = false →
  loop_exact w →
  ∃ w', process_loop (length q + S fuel) w = Ok tt w' ∧
        loop_exact w' ∧
        writeBuffer (cache w') = [] ∧
        maintenance w' = Running ∧
        evictionMutex (cache w') = false ∧
        i w' = (i w + Z.of_nat (length q)) mod bufferCapacity ∧
        Z.of_nat (length (write_sizes (trace w'))) =
          Z.of_nat (length (write_sizes (trace w))) +
          (i w + Z.of_nat (length q)) / bufferCapacity.
Proof.
  unfold bufferCapacity.
  induction q as [|t q IH]; intros fuel w Hd Hq Hrun Hm Hx.
  - exists w. change (length (@nil WriteTask) + S fuel)%nat with (S fuel).
    rewrite process_loop_S, Hrun, Hq. simpl length.
    destruct Hx as (Hi & Hlt & Hall). unfold bufferCapacity in Hlt.
    rewrite Z.add_0_r, Z.mod_small, Z.div_small by lia.
    repeat split; try done. lia.
  - apply Forall_cons in Hd as [Ht Hd]. simpl length.
    change (S (length q) + S fuel)%nat with (S (length q + S fuel)).
    rewrite process_loop_S, Hrun, Hq.
    destruct (steps_process_data t Ht (upd_cache (set_writeBuffer q) w))
      as (c & w2 & E2 & -> & Hf2 & Hm2); [done |].
    rewrite E2.
    pose proof Hf2 as (Ho2 & _). unfold outline in Ho2. simpl in Ho2.
    assert (Hx2 : loop_exact w2).
    { eapply (process_task_exact t Ht); [| exact E2]. exact Hx. }
    pose proof (process_task_data_view _ _ _ _ Ht E2) as Hv.
    destruct (IH fuel w2 Hd) as (w' & E1 & Hx' & Hq' & Hrun' & Hm' & Hi' & Hn');
      [congruence | congruence | done | done |].
    exists w'. split; [done |]. do 4 (split; [done |]).
    rewrite Hi', Hn'. clear Hi' Hn' E1 E2.
    destruct Hx as (Hi & Hlt & _). unfold bufferCapacity in *.
    unfold loopview in Hv. simpl in Hv.
    destruct (Z.geb_spec (i w + 1) 64); injection Hv as Hi2 _ Ht2;
      rewrite Hi2, Ht2.
    + rewrite length_app. simpl length.
      replace (i w + Z.of_nat (S (length q)))
        with (i w + 1 - 64 + Z.of_nat (length q) + 1 * 64) by lia.
      rewrite Z.mod_add, Z.div_add by lia. split; [done | lia].
    + replace (i w + Z.of_nat (S (length q)))
        with (i w + 1 + Z.of_nat (length q)) by lia.
      done.
Qed.

(** X13.  While no Clear and no Close comes, the maintenance loop writes
    full batches only.  From a world where the counter is the length of the
    pending batch and every batch written had 64 tasks, as in a new cache,
    with [n] tasks that carry nodes in the queue, the loop takes them all
    and parks running: every batch written has 64 tasks, their number grew
    by the quotient of [i + n] by 64, and the remainder is pending. *)
Theorem process_batches_full :
  (∀ parallelism (c : Config K V),
     loop_exact (NewCache parallelism c : World)) ∧
  (∀ w : World,
     loop_exact w →
     Forall is_data (writeBuffer (cache w)) →
     maintenance w = Running →
     evictionMutex (cache w) = false →
     ∃ w', process w = Ok tt w' ∧
           loop_exact w' ∧
           writeBuffer (cache w') = [] ∧
           maintenance w' = Running ∧
           i w' =
             (i w + Z.of_nat (length (writeBuffer (cache w))))
               mod bufferCapacity ∧
           Z.of_nat (length (write_sizes (trace w'))) =
             Z.of_nat (length (write_sizes (trace w))) +
             (i w + Z.of_nat (length (writeBuffer (cache w))))
               / bufferCapacity).
Proof.
  split.
  { intros. unfold loop_exact, bufferCapacity. simpl.
    repeat split; try lia. constructor. }
  intros w Hx Hd Hrun Hm.
  destruct (process_loop_counts (writeBuffer (cache w)) 0 w Hd eq_refl Hrun Hm Hx)
    as (w' & Ep & Hx' & Hq' & Hrun' & _ & Hi' & Hn').
  exists w'. unfold process, bind, get.
  rewrite Nat.add_1_r in Ep. tauto.
Qed.

(** ** Clear *)

(** The caller of [clear] is answered once the loop has taken the tasks
    that were queued before its own. *)
Lemma clear_done t (w : World) :
  IsClear t = true ∨ IsClose t = true →
  maintenance w = Running →
  evictionMutex (cache w) = false →
  Forall is_data (writeBuffer (cache w)) →
  ∃ w', clear t w = Ok tt w' ∧
        hashmap (cache w') = ∅ ∧
        readBuffers (cache w') = lossy_Clear <$> readBuffers (cache w) ∧
        writeBuffer (cache w') = [] ∧
        buffer w' = [] ∧
        stats (cache w') = stats_Clear (stats (cache w)) ∧
        (∃ p, policy (cache w') = policy_Clear p) ∧
        (∃ e, expirePolicy (cache w') = expire_Clear e) ∧
        (∃ before,
           trace w' =
           before ++
           [EvBufferClear; EvQueueClear; EvLock; EvPolicyClear;
            EvExpireClear] ++
           (if IsClose t then [EvSetClosed] else []) ++
           [EvUnlock; EvDoneClear]) ∧
        isClosed (cache w') = (IsClose t || isClosed (cache w)) ∧
        maintenance w' = (if IsClose t then Exited else Running) ∧
        evictionMutex (cache w') = false ∧
        receiving w' = false ∧
        (closeOnce (cache w'), withExpiration (cache w'), clock_users w',
         sweeper w') =
        (closeOnce (cache w), withExpiration (cache w), clock_users w,
         sweeper w).
Proof.
  intros Ht Hrun Hm Hd. rewrite clear_eq.
  set (wa := clearing t w).
  assert (Hqa : writeBuffer (cache wa) = writeBuffer (cache w) ++ [t])
    by done.
  destruct (process_loop_data (writeBuffer (cache w)) 2 [t] wa Hd Hqa)
    as (w1 & E1 & (Ho1 & Hs1 & _) & Hm1); [done | done |].
  unfold outline in Ho1. simpl in Ho1.
  injection Ho1 as Hrb1 Hst1 Hq1 Hco1 Hic1 Hwe1 Hcu1 Hrc1 Hmt1 Hsw1.
  destruct (process_loop_control 0 t [] w1)
    as (w2 & E2 & Hb2 & Hq2 & Hp2 & He2 & Hic2 & Hm2 & Hrc2 & Htr2 & Hmt2
        & Hh2 & _ & Ho2);
    [done | done | congruence | done | done |].
  unfold outline in Ho2. simpl in Ho2.
  injection Ho2 as Hrb2 Hst2 _ Hco2 _ Hwe2 Hcu2 _ _ Hsw2.
  assert (Hp : process wa = Ok tt w2).
  { unfold process, bind, get. rewrite Hqa, length_app. simpl length.
    replace (S (length (writeBuffer (cache w)) + 1))
      with (length (writeBuffer (cache w)) + 2)%nat by lia.
    by rewrite E1. }
  rewrite Hp, Hrc2.
  eexists. split; [reflexivity |].
  assert (Hempty : hashmap (cache w2) = ∅).
  { rewrite Hh2. apply map_empty. intros k.
    destruct (hashmap (cache w1) !! k) eqn:Hk; [| done].
    eapply lookup_weaken in Hk; [| exact Hs1]. done. }
  simpl.
  split; [done |]. split; [by rewrite Hrb2, Hrb1 |]. split; [done |].
  split; [done |]. split; [by rewrite Hst2, Hst1 |].
  split; [by exists (policy (cache w1)) |].
  split; [by exists (expirePolicy (cache w1)) |].
  split; [by exists (trace w1) |].
  split; [by rewrite Hic2, Hic1 |]. split; [done |]. split; [done |].
  split; [done |]. by rewrite Hco2, Hco1, Hwe2, Hwe1, Hcu2, Hcu1, Hsw2, Hsw1.
Qed.

(** X14.  Clear empties the cache and leaves it at work.  With the
    maintenance loop running, the mutex free and no Clear or Close pending,
    Clear returns after the acknowledgment of the loop: the hash table, the
    write queue and the pending batch are empty, the read buffers, the
    statistics and both policies are cleared; the loop still runs, the
    closed flags and the clock are as before, and a second Clear returns
    as well. *)
Theorem Clear_resets (w : World) :
  maintenance w = Running →
  evictionMutex (cache w) = false →
  Forall is_data (writeBuffer (cache w)) →
  ∃ w', Clear w = Ok tt w' ∧
        hashmap (cache w') = ∅ ∧
        Size w' = Ok 0 w' ∧
        readBuffers (cache w') = lossy_Clear <$> readBuffers (cache w) ∧
        writeBuffer (cache w') = [] ∧
        buffer w' = [] ∧
        stats (cache w') = stats_Clear (stats (cache w)) ∧
        (∃ p, policy (cache w') = policy_Clear p) ∧
        (∃ e, expirePolicy (cache w') = expire_Clear e) ∧
        isClosed (cache w') = isClosed (cache w) ∧
        closeOnce (cache w') = closeOnce (cache w) ∧
        clock_users w' = clock_users w ∧
        sweeper w' = sweeper w ∧
        maintenance w' = Running ∧
        evictionMutex (cache w') = false ∧
        ∃ w'', Clear w' = Ok tt w''.
Proof.
  intros Hrun Hm Hd.
  destruct (clear_done NewClearTask w) as
    (w' & Ec & Hh & Hrb & Hq & Hb & Hst & Hp & He & _ & Hic & Hmt & Hm'
     & _ & Hrest); [by left | done | done | done |].
  injection Hrest as Hco _ Hcu Hsw. simpl in Hic, Hmt.
  exists w'. split; [exact Ec |]. split; [done |].
  split; [by rewrite Size_eq, Hh |].
  do 12 (split; [done |]).
  destruct (clear_done NewClearTask w') as (w'' & Ec' & _);
    [by left | done | done | by rewrite Hq |].
  by exists w''.
Qed.

(** X15.  Once the maintenance loop has ended, nothing answers a Clear: the
    task is queued and the caller waits for ever on the done channel.  So a
    Clear that follows a Close does not return. *)
Theorem Clear_after_Close_waits :
  (∀ w : World, maintenance w = Exited → Clear w = Stuck Deadlock) ∧
  (∀ w : World,
     closeOnce (cache w) = false →
     maintenance w = Running →
     evictionMutex (cache w) = false →
     Forall is_data (writeBuffer (cache w)) →
     ∃ w', Close w = Ok tt w' ∧ Clear w' = Stuck Deadlock).
Proof.
  assert (Hwait : ∀ w : World,
            maintenance w = Exited → Clear w = Stuck Deadlock).
  { intros w Hx. unfold Clear. rewrite clear_eq.
    unfold process, bind, get. rewrite process_loop_S.
    change (maintenance (clearing NewClearTask w)) with (maintenance w).
    by rewrite Hx. }
  split; [exact Hwait |]. intros w Hc Hrun Hm Hd.
  rewrite (Close_eq w Hc).
  destruct (clear_done NewCloseTask w) as (w' & -> & Hrest);
    [by right | done | done | done |].
  eexists. split; [reflexivity |]. apply Hwait.
  unfold closed_after. simpl.
  destruct (withExpiration (cache w')); simpl; tauto.
Qed.

(** ** Between two operations *)

Lemma invariant_ret {A} (I : World → Prop) (a : A) : invariant I (ret a).
Proof. intros w b w' Hi Hr. unfold ret in Hr. by simplify_eq. Qed.

Lemma invariant_get {A} (I : World → Prop) (f : World → A) :
  invariant I (get f).
Proof. intros w b w' Hi Hr. unfold get in Hr. by simplify_eq. Qed.

Lemma invariant_bind {A B} (I : World → Prop) (m : M A) (k : A → M B) :
  invariant I m → (∀ a, invariant I (k a)) → invariant I (bind m k).
Proof.
  intros Hm Hk w b w' Hi Hr. apply bind_Ok_inv in Hr as (a & w1 & E1 & E2).
  eapply Hk; [| exact E2]. by eapply Hm.
Qed.

Lemma invariant_hashmap_Range {U} (I : World → Prop) order
    (f : ref → U → M (bool * U)) :
  (∀ n u, invariant I (f n u)) →
  ∀ u, invariant I (hashmap_Range order f u).
Proof.
  intros Hf. induction order as [|n order IH]; intros u; simpl.
  - apply invariant_ret.
  - apply invariant_bind; [apply Hf |]. intros [[] u']; simpl;
      [apply IH | apply invariant_ret].
Qed.

Lemma settled_mutex {A} (m : M A) :
  (∀ w a w', entries_alive w → m w = Ok a w' → entries_alive w') →
  keeps (λ w, evictionMutex (cache w)) m →
  invariant settled m.
Proof.
  intros He Hk w a w' [Hw Hm] Hr. split; [by eapply He |].
  rewrite <- Hm. by eapply Hk.
Qed.

Lemma set_settled key value e onlyIfAbsent :
  invariant settled (set key value e onlyIfAbsent).
Proof.
  apply settled_mutex.
  - intros w a w' Hw Hs. by eapply set_entries_alive.
  - repeat first
      [ keeps_step | apply keeps_modify; intros; reflexivity
      | progress unfold_ops ].
Qed.

Lemma Get_settled rnd now key :
  invariant settled (Get zeroValue rnd now key).
Proof.
  intros w r w' [Hw Hm] Hg. split; [by eapply Get_entries_alive |].
  revert Hg.
  unfold Get, afterGet, hashmap_Get, node_IsAlive, node_IsExpired,
    node_Value, node, getReadBufferIdx, Lock, Unlock, do_policy_Read,
    stats_IncMisses, stats_IncHits, writeBuffer_Insert.
  run. repeat (case_match; simpl in *; simplify_eq);
    intros; simplify_eq; done.
Qed.

Lemma deleteNode_settled n : invariant settled (deleteNode n).
Proof.
  intros w a w' [Hw Hm] Hd.
  destruct (heap w !! n) as [nd|] eqn:Hn.
  - destruct (decide (hashmap (cache w) !! Key nd = Some n)) as [Hk|Hk].
    + rewrite (deleteNode_stored n nd w Hn Hk) in Hd. simplify_eq.
      split; [by apply unlinked_entries_alive | done].
    + rewrite deleteNode_other in Hd; [by simplify_eq |].
      intros nd' Hn'. congruence.
  - rewrite deleteNode_other in Hd; [by simplify_eq |].
    intros nd' Hn'. congruence.
Qed.

Lemma process_task_settled t : invariant settled (process_task t).
Proof.
  intros w c w' [Hw Hm] Hp.
  destruct (IsClear t || IsClose t) eqn:Ht.
  - destruct w as [cc hp cu rc mt bf dl ii sw ex tr]. destruct cc.
    simpl in Hm. subst.
    destruct t; simpl in Ht; try discriminate; destruct rc;
      lazy -[app] in Hp; simplify_eq; (split; [exact Hw | done]).
  - apply orb_false_elim in Ht.
    destruct (steps_process_data t Ht w Hm) as (c0 & w0 & Et & _ & Hf & Hm0).
    rewrite Et in Hp. simplify_eq. split; [by apply Hf | done].
Qed.

Lemma process_loop_settled fuel : invariant settled (process_loop fuel).
Proof.
  induction fuel as [|fuel IH]; intros w a w' Hs Hp; [done |].
  rewrite process_loop_S in Hp.
  destruct (maintenance w); try by simplify_eq.
  destruct (writeBuffer (cache w)) as [|t q]; [by simplify_eq |].
  destruct (process_task t _) as [c w1|] eqn:Et; [| done].
  apply process_task_settled in Et; [| exact Hs].
  destruct c; [by eapply IH | by simplify_eq].
Qed.

Lemma process_settled : invariant settled process.
Proof.
  intros w a w' Hs Hp. unfold process, bind, get in Hp.
  by eapply process_loop_settled.
Qed.

Lemma clear_settled t : invariant settled (clear t).
Proof.
  intros w a w' [Hw Hm] Hc. rewrite clear_eq in Hc.
  destruct (process _) as [[] w1|] eqn:Ep; [| done].
  apply process_settled in Ep.
  - destruct (receiving w1); by simplify_eq.
  - split; [| done]. intros k n Hk. simpl in Hk.
    by rewrite lookup_empty in Hk.
Qed.

Lemma Close_settled : invariant settled Close.
Proof.
  intros w a w' Hs Hc. destruct (closeOnce (cache w)) eqn:Ho.
  - rewrite Close_again in Hc by done. by simplify_eq.
  - rewrite Close_eq in Hc by done.
    destruct (clear _ w) as [[] w1|] eqn:Ec; [| done].
    apply clear_settled in Ec; [| done]. simplify_eq.
    unfold closed_after. by destruct (withExpiration (cache w1)).
Qed.

(** X16.  Between two operations the cache is settled: every node the hash
    table holds is in the heap, under its own key and alive, and the mutex
    is free.  A new cache is settled, and every call of the facade that
    returns, every turn of the maintenance loop and every turn of the
    sweeper on an open cache lead from a settled world to a settled one,
    whatever the policies do. *)
Theorem settled_is_kept :
  (∀ parallelism (c : Config K V), settled (NewCache parallelism c : World)) ∧
  (∀ rnd now key, invariant settled (Get zeroValue rnd now key)) ∧
  (∀ rnd now key, invariant settled (Has zeroValue rnd now key)) ∧
  (∀ now key value, invariant settled (Set_ now key value)) ∧
  (∀ now key value d, invariant settled (SetWithTTL now key value d)) ∧
  (∀ now key value, invariant settled (SetIfAbsent now key value)) ∧
  (∀ now key value d,
     invariant settled (SetIfAbsentWithTTL now key value d)) ∧
  (∀ key, invariant settled (Delete key)) ∧
  (∀ order now f, invariant settled (DeleteByFunc order now f)) ∧
  (∀ U order now f (u : U), invariant settled (Range order now f u)) ∧
  invariant settled Clear ∧
  invariant settled Close ∧
  invariant settled process ∧
  (∀ now (w w' : World) a,
     settled w → isClosed (cache w) = false →
     cleanup_iter now w = Ok a w' → settled w').
Proof.
  split; [intros; split; [apply NewCache_entries_alive | done] |].
  split; [apply Get_settled |].
  split.
  { intros. unfold Has. apply invariant_bind; [apply Get_settled |].
    intros. apply invariant_ret. }
  split.
  { intros. unfold Set_, defaultExpiration.
    repeat first [apply set_settled | apply invariant_get
                 | apply invariant_ret | apply invariant_bind; [| intros]
                 | match goal with
                   | |- ?r (match ?x with _ => _ end) => destruct x
                   end]. }
  split; [intros; apply set_settled |].
  split.
  { intros. unfold SetIfAbsent, defaultExpiration.
    repeat first [apply set_settled | apply invariant_get
                 | apply invariant_ret | apply invariant_bind; [| intros]
                 | match goal with
                   | |- ?r (match ?x with _ => _ end) => destruct x
                   end]. }
  split; [intros; apply set_settled |].
  split.
  { intros key. apply settled_mutex.
    - intros w a w' Hw Hd. destruct a. by eapply Delete_entries_alive.
    - repeat first
        [ keeps_step | apply keeps_modify; intros; reflexivity
        | progress unfold_ops ]. }
  split.
  { intros. unfold DeleteByFunc, node. apply invariant_hashmap_Range.
    intros.
    repeat first [apply deleteNode_settled | apply invariant_get
                 | apply invariant_ret | apply invariant_bind; [| intros]
                 | match goal with
                   | |- ?r (match ?x with _ => _ end) => destruct x
                   end]. }
  split.
  { intros. unfold Range, node. apply invariant_hashmap_Range.
    intros.
    repeat first [apply invariant_get
                 | apply invariant_ret | apply invariant_bind; [| intros]
                 | match goal with
                   | |- ?r (match ?x with _ => _ end) => destruct x
                   end]. }
  split; [apply clear_settled |].
  split; [apply Close_settled |].
  split; [apply process_settled |].
  intros now w w' a [Hw Hm] Hc Hi.
  destruct (cleanup_iter_open now w Hc Hm) as (e & w0 & Ec & _ & Hf & Hm0).
  rewrite Ec in Hi. simplify_eq. split; [by apply Hf | done].
Qed.

(** ** What the sweeper removes *)

Lemma kill_kill (nd : Node K V) : kill (kill nd) = kill nd.
Proof. by destruct nd. Qed.

Lemma evict_one_exact n (w : World) :
  entries_alive w →
  ∃ w', bind (hashmap_DeleteNode n) (λ _, Die n) w = Ok tt w' ∧
        entries_alive w' ∧
        (∀ k m, hashmap (cache w') !! k = Some m ↔
                hashmap (cache w) !! k = Some m ∧ m ≠ n) ∧
        heap w' = alter kill n (heap w) ∧
        (policy (cache w'), expirePolicy (cache w'), writeBuffer (cache w'),
         evictionMutex (cache w')) =
        (policy (cache w), expirePolicy (cache w), writeBuffer (cache w),
         evictionMutex (cache w)).
Proof.
  intros Hw.
  destruct (evict_one n w) as (w' & Ev & _ & (_ & _ & Hf) & _).
  exists w'. split; [exact Ev |]. split; [by apply Hf |].
  revert Ev. unfold hashmap_DeleteNode, Die, node, hashmap_Get. run.
  destruct (heap w !! n) as [nd|] eqn:Hn; simpl;
    [destruct (hashmap (cache w) !! Key nd) as [p|] eqn:Hk; simpl;
       [case_bool_decide; simpl |] |];
    intros Ev; simplify_eq; simpl; (split; [| done]); intros k m.
  - rewrite lookup_delete_Some. split.
    + intros [Hne Hkm]. split; [done |]. intros ->.
      destruct (Hw _ _ Hkm) as (md & Hmd & Hkey & _). congruence.
    + intros [Hkm Hne]. split; [| done]. intros <-. congruence.
  - split; [| tauto]. intros Hkm. split; [done |]. intros ->.
    destruct (Hw _ _ Hkm) as (md & Hmd & Hkey & _). congruence.
  - split; [| tauto]. intros Hkm. split; [done |]. intros ->.
    destruct (Hw _ _ Hkm) as (md & Hmd & Hkey & _). congruence.
  - split; [| tauto]. intros Hkm. split; [done |]. intros ->.
    destruct (Hw _ _ Hkm) as (md & Hmd & Hkey & _). congruence.
Qed.

Lemma evict_all_exact l : ∀ w : World,
  entries_alive w →
  ∃ w', for_each l (λ n, bind (hashmap_DeleteNode n) (λ _, Die n)) w =
          Ok tt w' ∧
        entries_alive w' ∧
        (∀ k m, hashmap (cache w') !! k = Some m ↔
                hashmap (cache w) !! k = Some m ∧ m ∉ l) ∧
        (∀ m, heap w' !! m =
              if decide (m ∈ l) then kill <$> heap w !! m
              else heap w !! m) ∧
        (policy (cache w'), expirePolicy (cache w'), writeBuffer (cache w'),
         evictionMutex (cache w')) =
        (policy (cache w), expirePolicy (cache w), writeBuffer (cache w),
         evictionMutex (cache w)).
Proof.
  induction l as [|n l IH]; intros w Hw; simpl.
  - exists w. split; [done |]. split; [done |]. split; [| split; [| done]].
    + intros k m. rewrite elem_of_nil. tauto.
    + intros m. destruct (decide (m ∈ [])) as [Hin|]; [| done].
      by apply elem_of_nil in Hin.
  - destruct (evict_one_exact n w Hw) as (w1 & E1 & Hw1 & Hh1 & Hp1 & Hr1).
    destruct (IH w1 Hw1) as (w2 & E2 & Hw2 & Hh2 & Hp2 & Hr2).
    exists w2. unfold bind at 1. rewrite E1.
    split; [exact E2 |]. split; [done |]. split; [| split; [| congruence]].
    + intros k m. rewrite Hh2, Hh1, elem_of_cons. tauto.
    + intros m. rewrite Hp2, Hp1.
      destruct (decide (m = n)) as [->|Hne].
      * rewrite lookup_alter_eq.
        destruct (decide (n ∈ n :: l)) as [_|Hno];
          [| destruct Hno; apply elem_of_cons; by left].
        destruct (decide (n ∈ l)); [| done].
        destruct (heap w !! n); simpl; [by rewrite kill_kill | done].
      * rewrite lookup_alter_ne by done.
        destruct (decide (m ∈ l)) as [Hin|Hno];
          destruct (decide (m ∈ n :: l)) as [Hin'|Hno']; try done.
        -- destruct Hno'. apply elem_of_cons. by right.
        -- apply elem_of_cons in Hin' as [->|Hin']; done.
Qed.

(** X17.  A turn of the sweeper on an open, settled cache removes the
    nodes that [expirePolicy.RemoveExpired] returned, and nothing else.
    Under the mutex it takes the list [e] from the expiration policy and
    gives it to [policy.Delete]; after Unlock, the hash table has lost the
    entries whose node is in [e] and no other, the nodes of [e] are dead
    and the other nodes are as before.  The sweeper enqueues no task. *)
Theorem cleanup_removes_expired now (w : World) :
  settled w →
  isClosed (cache w) = false →
  let r := expire_RemoveExpired (heap w) now (expired w)
             (expirePolicy (cache w)) in
  ∃ w', cleanup_iter now w = Ok true w' ∧
        (∀ k m, hashmap (cache w') !! k = Some m ↔
                hashmap (cache w) !! k = Some m ∧ m ∉ r.1) ∧
        (∀ m, heap w' !! m =
              if decide (m ∈ r.1) then kill <$> heap w !! m
              else heap w !! m) ∧
        expirePolicy (cache w') = r.2 ∧
        policy (cache w') = policy_Delete (heap w) r.1 (policy (cache w)) ∧
        writeBuffer (cache w') = writeBuffer (cache w) ∧
        expired w' = [] ∧
        settled w'.
Proof.
  intros [Hw Hm] Hc r.
  unfold cleanup_iter, Lock, do_expire_RemoveExpired, do_policy_Delete, Unlock.
  run. rewrite Hm. simpl. rewrite Hc. simpl. fold r.
  match goal with
  | |- context [for_each _ ?f ?w0] =>
      destruct (evict_all_exact r.1 w0) as (w2 & E2 & Hw2 & Hh2 & Hp2 & Hr2)
  end; [exact Hw |].
  simpl in E2. unfold bind in E2. simpl in E2. simpl in Hh2, Hp2, Hr2.
  injection Hr2 as Hpol Hexp Hq Hmu.
  eexists. rewrite E2. split; [reflexivity |]. simpl.
  split; [exact Hh2 |]. split; [exact Hp2 |].
  do 5 (split; [done |]). done.
Qed.

(** ** Expired entries that were not swept *)

(** X18.  An entry that has expired stays in the hash table until a worker
    removes it, and SetIfAbsent does not look at expirations.  So for a key
    whose node is alive but expired, Get misses and enqueues a Delete task
    for the node, a SetIfAbsent of an admitted entry returns false and
    leaves the expired node in place, and Get misses again. *)
Theorem expired_entry_blocks now now' rnd key value n nd (w : World) :
  hashmap (cache w) !! key = Some n →
  heap w !! n = Some nd →
  IsAlive nd = true →
  IsExpired now' nd = true →
  cost_of key value w ≤ limit_of w →
  ∃ w1 w2 w3,
    Get zeroValue rnd now' key w = Ok (zeroValue, false) w1 ∧
    writeBuffer (cache w1) = writeBuffer (cache w) ++ [NewDeleteTask n] ∧
    SetIfAbsent now key value w1 = Ok false w2 ∧
    hashmap (cache w2) !! key = Some n ∧
    heap w2 !! n = Some nd ∧
    Get zeroValue rnd now' key w2 = Ok (zeroValue, false) w3.
Proof.
  intros Hk Hn Ha He Hc.
  set (w1 := count_miss (enqueue (NewDeleteTask n) w)).
  set (w2 := declined key value (default_expiration now w1) w1).
  assert (Hk2 : hashmap (cache w2) !! key = Some n) by exact Hk.
  assert (Hn2 : heap w2 !! n = Some nd).
  { unfold w2, declined, created, allocate. simpl.
    rewrite lookup_insert_ne; [done |].
    intros Heq. by eapply fresh_not_in_heap. }
  exists w1, w2. eexists.
  split; [by eapply Get_expired |]. split; [done |].
  split.
  { rewrite SetIfAbsent_eq, set_if_absent by exact Hc.
    change (hashmap (cache w1)) with (hashmap (cache w)). by rewrite Hk. }
  split; [done |]. split; [done |]. by eapply Get_expired.
Qed.

End facts.

(** * A concrete cache at work *)

Import Demo.

(** C1.  The sweeper does not release the mutex on every turn.  On an open
    cache a turn ends with the mutex free, Unlock being its last call but
    for the removals.  After Close, the turn in which the sweeper sees the
    closed flag takes the mutex with Lock and returns: the goroutine has
    ended and the mutex is still locked. *)
Theorem cleanup_exit_keeps_mutex :
  (λ w, (evictionMutex (cache w), sweeper w, last (trace w))) <$> sweep_open
    = Some (false, Running, Some EvUnlock) ∧
  (λ w, (evictionMutex (cache w), isClosed (cache w))) <$>
    exec Close (Some ttl_cache) = Some (false, true) ∧
  (λ w, (evictionMutex (cache w), sweeper w, last (trace w))) <$> sweep_closed
    = Some (true, Exited, Some EvLock).
Proof. vm_compute. done. Qed.

(** C2.  The batch given to [policy.Write] does not always hold 64 tasks.
    After 64 insertions the maintenance loop writes one batch of 64 tasks.
    After 10 insertions, Clear and 54 insertions, it writes one batch of 54
    tasks: Clear dropped the 10 pending tasks but the counter of the loop
    kept its 10. *)
Theorem process_batch_after_Clear :
  (λ w, length <$> batches (trace w)) <$> full_batch = Some [64%nat] ∧
  (λ w, (length <$> batches (trace w), i w, length (buffer w))) <$>
    batch_after_Clear = Some ([54%nat], 0, 0%nat).
Proof. vm_compute. done. Qed.

(** ** The theorems of the facade and of the loop at work *)

Lemma Set_cost_check_witness :
  cost_of 1%nat 6%nat small_cache > limit_of small_cache ∧
  Set_ 0 1%nat 6%nat small_cache = Ok false small_cache ∧
  SetIfAbsent 0 1%nat 6%nat small_cache = Ok false small_cache ∧
  cost_of 1%nat 5%nat small_cache = limit_of small_cache ∧
  Set_ 0 1%nat 5%nat small_cache =
    Ok true
      (inserted 1%nat 5%nat (default_expiration 0 small_cache) small_cache).
Proof.
  assert (H1 : cost_of 1%nat 6%nat small_cache > limit_of small_cache)
    by (vm_compute; reflexivity).
  assert (H2 : cost_of 1%nat 5%nat small_cache = limit_of small_cache)
    by (vm_compute; reflexivity).
  pose proof (proj1 (Set_cost_check 0 0 1%nat 6%nat small_cache) H1)
    as (R1 & _ & R3 & _).
  pose proof (proj2 (Set_cost_check 0 0 1%nat 5%nat small_cache) H2)
    as (R5 & _).
  repeat split; assumption.
Defined.

Lemma Get_cases_witness :
  hashmap (cache one_key) !! 7%nat = Some 0%nat ∧
  buffers_ok one_key ∧
  evictionMutex (cache one_key) = false ∧
  (∃ b, readBuffers (cache one_key) !! shard 3 one_key = Some b ∧
        Get 0%nat 3 0 7%nat one_key =
        Ok (1%nat, true) (count_hit (read_hit (shard 3 one_key) 0%nat b one_key))) ∧
  Get 0%nat 3 101 7%nat one_key_ttl =
    Ok (0%nat, false) (count_miss (enqueue (NewDeleteTask 0%nat) one_key_ttl)) ∧
  Get 0%nat 3 0 7%nat dead_key = Ok (0%nat, false) (count_miss dead_key) ∧
  Get 0%nat 3 0 8%nat one_key = Ok (0%nat, false) (count_miss one_key).
Proof.
  assert (Hk : hashmap (cache one_key) !! 7%nat = Some 0%nat)
    by (vm_compute; reflexivity).
  assert (Hb : buffers_ok one_key) by (by vm_compute).
  assert (Hm : evictionMutex (cache one_key) = false)
    by (vm_compute; reflexivity).
  split; [exact Hk |]. split; [exact Hb |]. split; [exact Hm |].
  split; [| split; [| split]].
  - refine (proj2 (proj2 (proj2 (Get_cases 0%nat 3 0 7%nat one_key) 0%nat
              (mkNode 7%nat 1%nat 0 1 true) Hk _)) _ _ Hb Hm);
      vm_compute; reflexivity.
  - refine (proj1 (proj2 (proj2 (Get_cases 0%nat 3 101 7%nat one_key_ttl) 0%nat
              (mkNode 7%nat 1%nat 101 1 true) _ _)) _ _);
      vm_compute; reflexivity.
  - refine (proj1 (proj2 (Get_cases 0%nat 3 0 7%nat dead_key) 0%nat
              (mkNode 7%nat 1%nat 0 1 false) _ _) _);
      vm_compute; reflexivity.
  - refine (proj1 (Get_cases 0%nat 3 0 8%nat one_key) _).
    vm_compute; reflexivity.
Defined.

Lemma Set_inserts_witness :
  cost_of 7%nat 2%nat one_key ≤ limit_of one_key ∧
  Set_ 0 7%nat 2%nat one_key =
    Ok true (inserted 7%nat 2%nat (default_expiration 0 one_key) one_key) ∧
  writeBuffer (cache (inserted 7%nat 2%nat 0 one_key)) =
    [NewAddTask 0%nat; NewUpdateTask 1%nat 0%nat] ∧
  (IsAlive <$> heap (inserted 7%nat 2%nat 0 one_key) !! 0%nat) = Some false.
Proof.
  assert (Hc : cost_of 7%nat 2%nat one_key ≤ limit_of one_key)
    by (by vm_compute).
  pose proof (Set_inserts 0 0 7%nat 2%nat one_key Hc) as (R1 & _ & R3).
  split; [exact Hc |]. split; [exact R1 |].
  split; vm_compute; reflexivity.
Defined.

Lemma SetIfAbsent_cases_witness :
  entries_alive fresh_cache ∧
  cost_of 7%nat 1%nat fresh_cache ≤ limit_of fresh_cache ∧
  ¬ has_live 7%nat fresh_cache ∧
  SetIfAbsent 0 7%nat 1%nat fresh_cache =
    Ok true (added 7%nat 1%nat (default_expiration 0 fresh_cache) fresh_cache) ∧
  ∃ w1 w2 w3,
    SetIfAbsent 0 7%nat 1%nat fresh_cache = Ok true w1 ∧
    SetIfAbsent 0 7%nat 2%nat w1 = Ok false w2 ∧
    Get 0%nat 3 0 7%nat w2 = Ok (1%nat, true) w3.
Proof.
  assert (Hw : entries_alive fresh_cache) by apply NewCache_entries_alive.
  assert (Hc : cost_of 7%nat 1%nat fresh_cache ≤ limit_of fresh_cache)
    by (by vm_compute).
  assert (Hno : ¬ has_live 7%nat fresh_cache).
  { intros (n & nd & Hk & _). vm_compute in Hk. discriminate. }
  pose proof (SetIfAbsent_cases 0%nat 0 0 7%nat 1%nat fresh_cache Hw Hc)
    as (_ & R2 & _ & R4).
  split; [exact Hw |]. split; [exact Hc |]. split; [exact Hno |].
  split; [exact (proj1 (R2 Hno)) |].
  apply (R4 2%nat 0 0 3 Hno); by vm_compute.
Defined.

Lemma Delete_cases_witness :
  hashmap (cache one_key) !! 7%nat = Some 0%nat ∧
  Delete 7%nat one_key = Ok tt (deleted_node 7%nat 0%nat one_key) ∧
  writeBuffer (cache (deleted_node 7%nat 0%nat one_key)) =
    writeBuffer (cache one_key) ++ [NewDeleteTask 0%nat] ∧
  Delete 7%nat (deleted_node 7%nat 0%nat one_key) =
    Ok tt (record [EvMapDelete 7%nat] (deleted_node 7%nat 0%nat one_key)).
Proof.
  assert (Hk : hashmap (cache one_key) !! 7%nat = Some 0%nat)
    by (vm_compute; reflexivity).
  pose proof (proj1 (Delete_cases 7%nat one_key) 0%nat Hk)
    as (R1 & _ & _ & R4 & _).
  split; [exact Hk |]. split; [exact R1 |]. split; [exact R4 |].
  apply (proj1 (proj2 (Delete_cases 7%nat (deleted_node 7%nat 0%nat one_key)))).
  vm_compute; reflexivity.
Defined.

Lemma Close_idempotent_witness :
  closeOnce (cache one_key_ttl) = false ∧
  maintenance one_key_ttl = Running ∧
  evictionMutex (cache one_key_ttl) = false ∧
  Forall is_data (writeBuffer (cache one_key_ttl)) ∧
  ∃ w', Close one_key_ttl = Ok tt w' ∧
        hashmap (cache w') = ∅ ∧
        isClosed (cache w') = true ∧
        maintenance w' = Exited ∧
        clock_users w' = 0%nat ∧
        Close w' = Ok tt w'.
Proof.
  assert (H1 : closeOnce (cache one_key_ttl) = false)
    by (vm_compute; reflexivity).
  assert (H2 : maintenance one_key_ttl = Running) by (vm_compute; reflexivity).
  assert (H3 : evictionMutex (cache one_key_ttl) = false)
    by (vm_compute; reflexivity).
  assert (H4 : Forall is_data (writeBuffer (cache one_key_ttl))).
  { vm_compute. repeat constructor. }
  destruct (proj2 (Close_idempotent one_key_ttl) H1 H2 H3 H4)
    as (w' & R1 & R2 & _ & _ & _ & R6 & R7 & _ & _ & R10 & _ & R12).
  repeat (split; [assumption |]).
  exists w'. split; [exact R1 |]. split; [exact R2 |]. split; [exact R6 |].
  split; [exact R7 |]. split; [| exact R12].
  rewrite R10. vm_compute. reflexivity.
Defined.

Lemma process_clear_or_close_witness :
  writeBuffer (cache clear_pending) = [NewClearTask] ∧
  buffer clear_pending = [NewAddTask 0%nat] ∧
  maintenance clear_pending = Running ∧
  evictionMutex (cache clear_pending) = false ∧
  receiving clear_pending = true ∧
  (∃ w', process clear_pending = Ok tt w' ∧
         buffer w' = [] ∧
         isClosed (cache w') = false ∧
         maintenance w' = Running ∧
         trace w' =
           trace clear_pending ++
           [EvBufferClear; EvQueueClear; EvLock; EvPolicyClear;
            EvExpireClear; EvUnlock; EvDoneClear]) ∧
  writeBuffer (cache close_pending) = [NewCloseTask] ∧
  maintenance close_pending = Running ∧
  evictionMutex (cache close_pending) = false ∧
  receiving close_pending = true ∧
  (∃ w', process close_pending = Ok tt w' ∧
         buffer w' = [] ∧
         isClosed (cache w') = true ∧
         maintenance w' = Exited ∧
         trace w' =
           trace close_pending ++
           [EvBufferClear; EvQueueClear; EvLock; EvPolicyClear;
            EvExpireClear; EvSetClosed; EvUnlock; EvDoneClear]).
Proof.
  assert (H1 : writeBuffer (cache clear_pending) = [NewClearTask])
    by (vm_compute; reflexivity).
  assert (H2 : maintenance clear_pending = Running)
    by (vm_compute; reflexivity).
  assert (H3 : evictionMutex (cache clear_pending) = false)
    by (vm_compute; reflexivity).
  assert (H4 : receiving clear_pending = true) by (vm_compute; reflexivity).
  assert (H5 : writeBuffer (cache close_pending) = [NewCloseTask])
    by (vm_compute; reflexivity).
  assert (H6 : maintenance close_pending = Running)
    by (vm_compute; reflexivity).
  assert (H7 : evictionMutex (cache close_pending) = false)
    by (vm_compute; reflexivity).
  assert (H8 : receiving close_pending = true) by (vm_compute; reflexivity).
  destruct (process_clear_or_close NewClearTask [] clear_pending
              (or_introl eq_refl) H1 H2 H3 H4)
    as (w' & R1 & R2 & _ & _ & _ & R6 & _ & _ & R9 & R10 & _).
  destruct (process_clear_or_close NewCloseTask [] close_pending
              (or_intror eq_refl) H5 H6 H7 H8)
    as (w'' & S1 & S2 & _ & _ & _ & S6 & _ & _ & S9 & S10 & _).
  split; [exact H1 |]. split; [vm_compute; reflexivity |].
  split; [exact H2 |]. split; [exact H3 |]. split; [exact H4 |].
  split.
  { exists w'. split; [exact R1 |]. split; [exact R2 |].
    split; [| split; [exact R10 | exact R9]].
    rewrite R6. vm_compute. reflexivity. }
  split; [exact H5 |]. split; [exact H6 |]. split; [exact H7 |].
  split; [exact H8 |].
  exists w''. split; [exact S1 |]. split; [exact S2 |].
  split; [exact S6 |]. split; [exact S10 | exact S9].
Defined.

Lemma Has_is_Get_witness :
  hashmap (cache one_key) !! 7%nat = Some 0%nat ∧
  buffers_ok one_key ∧
  evictionMutex (cache one_key) = false ∧
  (∃ b, readBuffers (cache one_key) !! shard 3 one_key = Some b ∧
        Has 0%nat 3 0 7%nat one_key =
        Ok true (count_hit (read_hit (shard 3 one_key) 0%nat b one_key))) ∧
  Has 0%nat 3 101 7%nat one_key_ttl =
    Ok false (count_miss (enqueue (NewDeleteTask 0%nat) one_key_ttl)) ∧
  Has 0%nat 3 0 8%nat one_key = Ok false (count_miss one_key).
Proof.
  assert (Hk : hashmap (cache one_key) !! 7%nat = Some 0%nat)
    by (vm_compute; reflexivity).
  assert (Hb : buffers_ok one_key) by (by vm_compute).
  assert (Hm : evictionMutex (cache one_key) = false)
    by (vm_compute; reflexivity).
  split; [exact Hk |]. split; [exact Hb |]. split; [exact Hm |].
  split; [| split].
  - refine (proj2 (proj2 (proj2 (proj2 (Has_is_Get 0%nat 3 0 7%nat one_key))
              0%nat (mkNode 7%nat 1%nat 0 1 true) Hk _)) _ _ Hb Hm);
      vm_compute; reflexivity.
  - refine (proj1 (proj2 (proj2 (proj2 (Has_is_Get 0%nat 3 101 7%nat one_key_ttl))
              0%nat (mkNode 7%nat 1%nat 101 1 true) _ _)) _ _);
      vm_compute; reflexivity.
  - refine (proj1 (proj2 (Has_is_Get 0%nat 3 0 8%nat one_key)) _).
    vm_compute; reflexivity.
Defined.

(** * The further properties at work *)

(** The worlds of the examples are settled. *)
Lemma one_key_entries_alive : entries_alive one_key.
Proof.
  assert (Es : Set_ 0 7%nat 1%nat fresh_cache = Ok true one_key)
    by (vm_compute; reflexivity).
  rewrite Set_eq in Es.
  eapply set_entries_alive; [| exact Es]. apply NewCache_entries_alive.
Qed.

Lemma one_key_enumerates : enumerates [0%nat] one_key.
Proof.
  assert (Hh : hashmap (cache one_key) = {[7%nat := 0%nat]})
    by (vm_compute; reflexivity).
  split; [apply NoDup_singleton |]. intros n. rewrite Hh. split.
  - intros ->%list_elem_of_singleton. exists 7%nat. apply lookup_singleton_eq.
  - intros [k Hk]. apply lookup_singleton_Some in Hk as [_ <-].
    by apply list_elem_of_singleton.
Qed.

Lemma getExpiration_rounds_up_witness :
  0 ≤ 1 < 2 ^ 32 ∧
  (1 - 1) * Second < 1 ≤ 1 * Second ∧
  getExpiration 100 1 = u32 (100 + 1).
Proof.
  assert (Hk : 0 ≤ 1 < 2 ^ 32) by lia.
  assert (Hd : (1 - 1) * Second < 1 ≤ 1 * Second) by (unfold Second; lia).
  split; [exact Hk |]. split; [exact Hd |].
  exact (getExpiration_rounds_up 100 1 1 Hk Hd).
Defined.

Lemma fixed_ttl_is_default_witness :
  TTL (config 10 (Some Second)) = Some Second ∧
  ttl (cache ttl_cache) = 1 ∧
  sweeper ttl_cache = Running ∧
  Set_ 100 7%nat 1%nat ttl_cache = SetWithTTL 100 7%nat 1%nat Second ttl_cache.
Proof.
  assert (Hc : TTL (config 10 (Some Second)) = Some Second) by reflexivity.
  assert (Hk : 0 ≤ 1 < 2 ^ 32) by lia.
  assert (Hd : (1 - 1) * Second < Second ≤ 1 * Second)
    by (unfold Second; lia).
  pose proof (fixed_ttl_is_default (P := Z * list ref) (E := list ref)
                2 (config 10 (Some Second)) Second 1 100 7%nat 1%nat Hc Hk Hd)
    as (R1 & R2 & R3 & _).
  split; [exact Hc |]. split; [exact R1 |]. split; [exact R2 |].
  apply R3. lia.
Defined.

Lemma getReadBufferIdx_mod_witness :
  1 ≤ 2 ≤ 2 ^ 29 ∧
  length (readBuffers (cache fresh_cache)) = 8%nat ∧
  getReadBufferIdx 13 fresh_cache = Ok 5 fresh_cache.
Proof.
  assert (Hp : 1 ≤ 2 ≤ 2 ^ 29) by lia.
  pose proof (getReadBufferIdx_mod (P := Z * list ref) (E := list ref)
                2 (config 10 None) 13 Hp) as (_ & R2 & _).
  split; [exact Hp |]. split; [vm_compute; reflexivity |].
  etransitivity; [exact R2 |]. vm_compute. reflexivity.
Defined.


Lemma Set_twice_witness :
  entries_alive fresh_cache ∧
  cost_of 7%nat 1%nat fresh_cache ≤ limit_of fresh_cache ∧
  cost_of 7%nat 2%nat fresh_cache ≤ limit_of fresh_cache ∧
  buffers_ok fresh_cache ∧
  evictionMutex (cache fresh_cache) = false ∧
  ∃ w1 w2 n1 n2,
    Set_ 0 7%nat 1%nat fresh_cache = Ok true w1 ∧
    Set_ 1 7%nat 2%nat w1 = Ok true w2 ∧
    hashmap (cache w2) !! 7%nat = Some n2 ∧
    n1 ≠ n2 ∧
    IsAlive <$> heap w2 !! n1 = Some false ∧
    ∃ w3, Get 0%nat 3 2 7%nat w2 = Ok (2%nat, true) w3.
Proof.
  assert (Hw : entries_alive fresh_cache) by apply NewCache_entries_alive.
  assert (Hc1 : cost_of 7%nat 1%nat fresh_cache ≤ limit_of fresh_cache)
    by (by vm_compute).
  assert (Hc2 : cost_of 7%nat 2%nat fresh_cache ≤ limit_of fresh_cache)
    by (by vm_compute).
  assert (Hb : buffers_ok fresh_cache) by (by vm_compute).
  assert (Hm : evictionMutex (cache fresh_cache) = false)
    by (vm_compute; reflexivity).
  destruct (Set_twice 0%nat 0 1 2 3 7%nat 1%nat 2%nat fresh_cache
              Hw Hc1 Hc2 Hb Hm)
    as (w1 & w2 & n1 & n2 & R1 & R2 & _ & R4 & R5 & R6 & _ & _ & R9).
  split; [exact Hw |]. split; [exact Hc1 |]. split; [exact Hc2 |].
  split; [exact Hb |]. split; [exact Hm |].
  exists w1, w2, n1, n2.
  split; [exact R1 |]. split; [exact R2 |]. split; [exact R4 |].
  split; [exact R5 |]. split; [exact R6 |].
  apply R9. left. vm_compute. reflexivity.
Defined.

Lemma Set_Delete_Get_witness :
  entries_alive fresh_cache ∧
  cost_of 7%nat 1%nat fresh_cache ≤ limit_of fresh_cache ∧
  ∃ w1 w2,
    Set_ 0 7%nat 1%nat fresh_cache = Ok true w1 ∧
    Delete 7%nat w1 = Ok tt w2 ∧
    Get 0%nat 3 0 7%nat w2 = Ok (0%nat, false) (count_miss w2).
Proof.
  assert (Hw : entries_alive fresh_cache) by apply NewCache_entries_alive.
  assert (Hc : cost_of 7%nat 1%nat fresh_cache ≤ limit_of fresh_cache)
    by (by vm_compute).
  destruct (Set_Delete_Get 0%nat 0 3 0 7%nat 1%nat fresh_cache Hw Hc)
    as (w1 & w2 & n & R1 & R2 & _ & _ & _ & R6 & _).
  split; [exact Hw |]. split; [exact Hc |].
  exists w1, w2. split; [exact R1 |]. split; [exact R2 | exact R6].
Defined.

Lemma Size_follows_witness :
  cost_of 7%nat 2%nat one_key ≤ limit_of one_key ∧
  (∃ w1, Set_ 0 7%nat 2%nat one_key = Ok true w1 ∧ Size w1 = Ok 1 w1) ∧
  (∃ w1, Delete 7%nat one_key = Ok tt w1 ∧ Size w1 = Ok 0 w1).
Proof.
  assert (Hc : cost_of 7%nat 2%nat one_key ≤ limit_of one_key)
    by (by vm_compute).
  destruct (Size_follows 0 7%nat 2%nat one_key Hc)
    as ((w1 & R1 & R2) & _ & (w3 & R3 & R4)).
  split; [exact Hc |]. split.
  - exists w1. split; [exact R1 |]. etransitivity; [exact R2 |].
    f_equal.
  - exists w3. split; [exact R3 |]. etransitivity; [exact R4 |].
    f_equal.
Defined.

Lemma deleteNode_by_identity_witness :
  heap one_key !! 0%nat = Some (mkNode 7%nat 1%nat 0 1 true) ∧
  hashmap (cache one_key) !! 7%nat = Some 0%nat ∧
  deleteNode 0%nat one_key = Ok tt (unlinked 7%nat 0%nat one_key) ∧
  deleteNode 0%nat (inserted 7%nat 2%nat 0 one_key) =
    Ok tt (record [EvMapDeleteNode 0%nat] (inserted 7%nat 2%nat 0 one_key)).
Proof.
  assert (Hn : heap one_key !! 0%nat = Some (mkNode 7%nat 1%nat 0 1 true))
    by (vm_compute; reflexivity).
  assert (Hk : hashmap (cache one_key) !! 7%nat = Some 0%nat)
    by (vm_compute; reflexivity).
  pose proof (deleteNode_by_identity 7%nat 2%nat 0 0%nat
                (mkNode 7%nat 1%nat 0 1 true) one_key Hn)
    as (R1 & _ & R3).
  split; [exact Hn |]. split; [exact Hk |].
  split; [exact (proj1 (R1 Hk)) |].
  exact (proj1 (R3 one_key_entries_alive Hk)).
Defined.

Lemma Range_shows_witness :
  entries_alive one_key ∧
  enumerates [0%nat] one_key ∧
  Range [0%nat] (λ _, 0) (λ k v acc, (true, acc ++ [(k, v)])) [] one_key =
    Ok (shown (λ _, 0) one_key [0%nat]) one_key ∧
  shown (λ _, 0) one_key [0%nat] = [(7%nat, 1%nat)] ∧
  NoDup (shown (λ _, 0) one_key [0%nat]).*1.
Proof.
  pose proof (Range_shows (U := list (nat * nat)) [0%nat] (λ _, 0)
                (λ k v acc, (true, acc ++ [(k, v)])) [] one_key)
    as (_ & R2 & R3).
  split; [exact one_key_entries_alive |].
  split; [exact one_key_enumerates |].
  split; [exact R2 |]. split; [vm_compute; reflexivity |].
  exact (proj1 (R3 one_key_entries_alive one_key_enumerates)).
Defined.

Lemma DeleteByFunc_removes_witness :
  entries_alive one_key ∧
  enumerates [0%nat] one_key ∧
  ∃ w', DeleteByFunc [0%nat] (λ _, 0) (λ _ _, true) one_key = Ok tt w' ∧
        entries_alive w' ∧
        hashmap (cache w') !! 7%nat = None ∧
        writeBuffer (cache w') =
          [NewAddTask 0%nat; NewDeleteTask 0%nat].
Proof.
  destruct (DeleteByFunc_removes [0%nat] (λ _, 0) (λ _ _, true) one_key
              one_key_entries_alive one_key_enumerates)
    as (w' & R1 & R2 & R3 & _ & _ & R6).
  split; [exact one_key_entries_alive |].
  split; [exact one_key_enumerates |].
  exists w'. split; [exact R1 |]. split; [exact R2 |]. split.
  - etransitivity; [exact (R3 7%nat) |]. vm_compute. reflexivity.
  - etransitivity; [exact R6 |]. vm_compute. reflexivity.
Defined.

Lemma layout_is_fixed_witness :
  Set_ 0 8%nat 2%nat one_key = Ok true (after (Set_ 0 8%nat 2%nat) one_key) ∧
  buffers_ok one_key ∧
  layout (after (Set_ 0 8%nat 2%nat) one_key) = layout one_key ∧
  buffers_ok (after (Set_ 0 8%nat 2%nat) one_key).
Proof.
  assert (Es : Set_ 0 8%nat 2%nat one_key =
               Ok true (after (Set_ 0 8%nat 2%nat) one_key))
    by (vm_compute; reflexivity).
  assert (Hb : buffers_ok one_key) by (by vm_compute).
  pose proof (layout_is_fixed (P := Z * list ref) (E := list ref) 0%nat)
    as (_ & _ & R3 & R).
  pose proof (R3 0 8%nat 2%nat _ _ _ Es) as Hl.
  split; [exact Es |]. split; [exact Hb |]. split; [exact Hl |].
  do 11 apply proj2 in R. exact (R _ _ Hl Hb).
Defined.

Lemma process_batch_bounded_witness :
  loop_bounded fresh_cache ∧
  process (after (burst 0 64) fresh_cache) =
    Ok tt (after process (after (burst 0 64) fresh_cache)) ∧
  loop_bounded (after (burst 0 64) fresh_cache) ∧
  loop_bounded (after process (after (burst 0 64) fresh_cache)).
Proof.
  pose proof (process_batch_bounded (P := Z * list ref) (E := list ref) 0%nat)
    as (R1 & _ & R3 & _).
  assert (Ep : process (after (burst 0 64) fresh_cache) =
               Ok tt (after process (after (burst 0 64) fresh_cache)))
    by (vm_compute; reflexivity).
  assert (Hb : loop_bounded (after (burst 0 64) fresh_cache)).
  { split; [split; by vm_compute |]. split; [by vm_compute |].
    vm_compute. constructor. }
  split; [exact (R1 2 (config 10 None)) |]. split; [exact Ep |].
  split; [exact Hb |]. exact (R3 _ _ _ Hb Ep).
Defined.

Lemma process_batches_full_witness :
  loop_exact (after (burst 0 64) fresh_cache) ∧
  Forall is_data (writeBuffer (cache (after (burst 0 64) fresh_cache))) ∧
  maintenance (after (burst 0 64) fresh_cache) = Running ∧
  evictionMutex (cache (after (burst 0 64) fresh_cache)) = false ∧
  ∃ w', process (after (burst 0 64) fresh_cache) = Ok tt w' ∧
        loop_exact w' ∧
        i w' = 0 ∧
        length (write_sizes (trace w')) = 1%nat.
Proof.
  assert (Hx : loop_exact (after (burst 0 64) fresh_cache)).
  { split; [vm_compute; reflexivity |]. split; [by vm_compute |].
    vm_compute. constructor. }
  assert (Hd : Forall is_data
                 (writeBuffer (cache (after (burst 0 64) fresh_cache)))).
  { vm_compute. repeat constructor. }
  assert (Hr : maintenance (after (burst 0 64) fresh_cache) = Running)
    by (vm_compute; reflexivity).
  assert (Hm : evictionMutex (cache (after (burst 0 64) fresh_cache)) = false)
    by (vm_compute; reflexivity).
  destruct (proj2 (process_batches_full (P := Z * list ref) (E := list ref))
              _ Hx Hd Hr Hm)
    as (w' & R1 & R2 & _ & _ & R5 & R6).
  split; [exact Hx |]. split; [exact Hd |]. split; [exact Hr |].
  split; [exact Hm |].
  exists w'. split; [exact R1 |]. split; [exact R2 |]. split.
  - etransitivity; [exact R5 |]. vm_compute. reflexivity.
  - apply Nat2Z.inj. etransitivity; [exact R6 |]. vm_compute. reflexivity.
Defined.

Lemma Clear_resets_witness :
  maintenance one_key = Running ∧
  evictionMutex (cache one_key) = false ∧
  Forall is_data (writeBuffer (cache one_key)) ∧
  ∃ w', Clear one_key = Ok tt w' ∧
        hashmap (cache w') = ∅ ∧
        Size w' = Ok 0 w' ∧
        maintenance w' = Running ∧
        ∃ w'', Clear w' = Ok tt w''.
Proof.
  assert (Hr : maintenance one_key = Running) by (vm_compute; reflexivity).
  assert (Hm : evictionMutex (cache one_key) = false)
    by (vm_compute; reflexivity).
  assert (Hd : Forall is_data (writeBuffer (cache one_key))).
  { vm_compute. repeat constructor. }
  destruct (Clear_resets one_key Hr Hm Hd)
    as (w' & R1 & R2 & R3 & _ & _ & _ & _ & _ & _ & _ & _ & _ & _ & R14
        & _ & R16).
  split; [exact Hr |]. split; [exact Hm |]. split; [exact Hd |].
  exists w'. split; [exact R1 |]. split; [exact R2 |]. split; [exact R3 |].
  split; [exact R14 | exact R16].
Defined.

Lemma Clear_after_Close_waits_witness :
  closeOnce (cache one_key_ttl) = false ∧
  maintenance one_key_ttl = Running ∧
  evictionMutex (cache one_key_ttl) = false ∧
  Forall is_data (writeBuffer (cache one_key_ttl)) ∧
  ∃ w', Close one_key_ttl = Ok tt w' ∧ Clear w' = Stuck Deadlock.
Proof.
  assert (H1 : closeOnce (cache one_key_ttl) = false)
    by (vm_compute; reflexivity).
  assert (H2 : maintenance one_key_ttl = Running) by (vm_compute; reflexivity).
  assert (H3 : evictionMutex (cache one_key_ttl) = false)
    by (vm_compute; reflexivity).
  assert (H4 : Forall is_data (writeBuffer (cache one_key_ttl))).
  { vm_compute. repeat constructor. }
  split; [exact H1 |]. split; [exact H2 |]. split; [exact H3 |].
  split; [exact H4 |].
  exact (proj2 Clear_after_Close_waits one_key_ttl H1 H2 H3 H4).
Defined.

Lemma settled_is_kept_witness :
  settled fresh_cache ∧
  Set_ 0 7%nat 1%nat fresh_cache = Ok true one_key ∧
  settled one_key.
Proof.
  pose proof (settled_is_kept (P := Z * list ref) (E := list ref) 0%nat)
    as (R1 & _ & _ & R4 & _).
  assert (Es : Set_ 0 7%nat 1%nat fresh_cache = Ok true one_key)
    by (vm_compute; reflexivity).
  split; [exact (R1 2 (config 10 None)) |]. split; [exact Es |].
  exact (R4 0 7%nat 1%nat _ _ _ (R1 2 (config 10 None)) Es).
Defined.

Lemma swept_ready_settled : settled swept_ready.
Proof.
  assert (Hb : ∀ l, invariant settled
            (for_each l (λ k, bind (Set_ 0 k 1%nat) (λ _, ret tt))
               : Op unit)).
  { induction l as [|k l IH]; simpl; [apply invariant_ret |].
    apply invariant_bind; [| intros; apply IH].
    apply invariant_bind; [| intros; apply invariant_ret].
    unfold Set_, defaultExpiration.
    apply invariant_bind; [| intros; apply set_settled].
    apply invariant_bind; [apply invariant_get |]. intros t.
    destruct (t =? 0); apply invariant_ret. }
  assert (E1 : burst 0 64 ttl_cache = Ok tt (after (burst 0 64) ttl_cache))
    by (vm_compute; reflexivity).
  assert (E2 : process (after (burst 0 64) ttl_cache) = Ok tt swept_ready)
    by (vm_compute; reflexivity).
  eapply process_settled; [| exact E2].
  eapply Hb; [| exact E1].
  split; [apply NewCache_entries_alive | reflexivity].
Qed.

Lemma cleanup_removes_expired_witness :
  settled swept_ready ∧
  isClosed (cache swept_ready) = false ∧
  length (expire_RemoveExpired (heap swept_ready) 1000 (expired swept_ready)
            (expirePolicy (cache swept_ready))).1 = 10%nat ∧
  ∃ w', cleanup_iter 1000 swept_ready = Ok true w' ∧
        expirePolicy (cache w') = [] ∧
        writeBuffer (cache w') = writeBuffer (cache swept_ready) ∧
        settled w'.
Proof.
  assert (Hc : isClosed (cache swept_ready) = false)
    by (vm_compute; reflexivity).
  destruct (cleanup_removes_expired 1000 swept_ready swept_ready_settled Hc)
    as (w' & R1 & _ & _ & R4 & _ & R6 & _ & R8).
  split; [exact swept_ready_settled |]. split; [exact Hc |].
  split; [vm_compute; reflexivity |].
  exists w'. split; [exact R1 |]. split.
  - etransitivity; [exact R4 |]. vm_compute. reflexivity.
  - split; [exact R6 | exact R8].
Defined.

Lemma expired_entry_blocks_witness :
  hashmap (cache one_key_ttl) !! 7%nat = Some 0%nat ∧
  heap one_key_ttl !! 0%nat = Some (mkNode 7%nat 1%nat 101 1 true) ∧
  IsExpired 101 (mkNode 7%nat 1%nat 101 1 true) = true ∧
  cost_of 7%nat 2%nat one_key_ttl ≤ limit_of one_key_ttl ∧
  ∃ w1 w2 w3,
    Get 0%nat 3 101 7%nat one_key_ttl = Ok (0%nat, false) w1 ∧
    SetIfAbsent 101 7%nat 2%nat w1 = Ok false w2 ∧
    Get 0%nat 3 101 7%nat w2 = Ok (0%nat, false) w3.
Proof.
  assert (Hk : hashmap (cache one_key_ttl) !! 7%nat = Some 0%nat)
    by (vm_compute; reflexivity).
  assert (Hn : heap one_key_ttl !! 0%nat =
               Some (mkNode 7%nat 1%nat 101 1 true))
    by (vm_compute; reflexivity).
  assert (He : IsExpired 101 (mkNode 7%nat 1%nat 101 1 true) = true)
    by (vm_compute; reflexivity).
  assert (Hc : cost_of 7%nat 2%nat one_key_ttl ≤ limit_of one_key_ttl)
    by (by vm_compute).
  destruct (expired_entry_blocks 0%nat 101 101 3 7%nat 2%nat 0%nat
              (mkNode 7%nat 1%nat 101 1 true) one_key_ttl
              Hk Hn eq_refl He Hc)
    as (w1 & w2 & w3 & R1 & _ & R3 & _ & _ & R6).
  split; [exact Hk |]. split; [exact Hn |]. split; [exact He |].
  split; [exact Hc |].
  exists w1, w2, w3. split; [exact R1 |]. split; [exact R3 | exact R6].
Defined.
